(** * Guruwalk Agent API: task lifecycle of [app.py] and [server.py]

    A shallow embedding of the two FastAPI servers of the repository.
    Handlers and background coroutines are written as programs over the
    module-level state ([tasks], [browser_session], [llm_model]); calls
    into the libraries the servers drive (uuid, browser_use, asyncio) are
    events answered by an environment.  Programs run the way the asyncio
    event loop runs coroutines: a coroutine keeps the loop until it
    reaches an [await] on a library coroutine. *)

From stdpp Require Import gmap strings list fin_maps pretty.

Local Open Scope string_scope.

(** ** Python values *)

(** JSON-like values stored in a record's ["result"] dictionary. *)
Local Unset Elimination Schemes.
Inductive PyVal : Type :=
| PNone
| PBool (b : bool)
| PInt (z : Z)
| PStr (s : string)
| PDict (items : list (string * PyVal)).
Local Set Elimination Schemes.

(** A Python [dict] literal with string keys, in insertion order. *)
Definition PyDict : Type := list (string * PyVal).

(** Objects of the driven libraries are known by their identity only. *)
Definition Obj : Type := nat.

(** Instances of [Exception]: what [except Exception] catches. *)
Inductive Exc : Type :=
| HTTPException (status_code : nat) (detail : string)
| KeyError (key : string)
| RuntimeError (msg : string)
| TimeoutError
| PyException (cls msg : string).

(** [str(e)].  [HTTPException.__str__] gives ["{status_code}: {detail}"],
    a [KeyError] prints the [repr] of its key (quoted; the keys here are
    the texts of UUIDs, which need no escapes), [asyncio.TimeoutError()]
    is raised without arguments, the others print their message. *)
Definition str (e : Exc) : string :=
  match e with
  | HTTPException status_code detail => pretty status_code +:+ ": " +:+ detail
  | KeyError key => "'" +:+ key +:+ "'"
  | RuntimeError msg => msg
  | TimeoutError => ""
  | PyException _ msg => msg
  end.

(** A call either returns or raises. *)
Inductive Outcome (R : Type) : Type :=
| Returns (r : R)
| Raises (e : Exc).
Arguments Returns {R} r.
Arguments Raises {R} e.

Definition returned {R} (o : Outcome R) : bool :=
  match o with Returns _ => true | Raises _ => false end.

(** [result.usage] of an agent run: truthiness and [model_dump()]. *)
Record UsageSummary : Type := {
  usage_bool : bool;
  model_dump : Outcome PyVal
}.

(** What [agent.run()] returns: truthiness ([__len__] of the history)
    and the [usage] attribute, whose read may raise. *)
Record AgentHistoryList : Type := {
  history_bool : bool;
  usage : Outcome (option UsageSummary)
}.

(** [result.usage.model_dump() if result and result.usage else None] *)
Definition usage_of (result : option AgentHistoryList) : Outcome PyVal :=
  match result with
  | None => Returns PNone
  | Some r =>
      if history_bool r then
        match usage r with
        | Raises e => Raises e
        | Returns None => Returns PNone
        | Returns (Some u) =>
            if usage_bool u then model_dump u else Returns PNone
        end
      else Returns PNone
  end.

(** ** Library calls *)

Inductive Ext : Type -> Type :=
| Uuid4 : Ext string
| Import (module : string) : Ext unit
| NewBrowserProfile (headless : bool) (user_data_dir : option string)
    (disable_security : option bool) (args : list string) : Ext Obj
| NewBrowserSession (browser_profile : Obj) : Ext Obj
| BrowserStart (session : Obj) (timeout : option nat) : Ext unit
| BrowserClose (session : Obj) : Ext unit
| NewChatOpenAI (model : string) : Ext Obj
| NewAgent (task : string) (llm browser_session : option Obj) : Ext Obj
| AgentRun (agent : Obj) : Ext (option AgentHistoryList)
| AsyncioCreateTask : Ext unit.

(** The environment answers the [n]-th library call of a run. *)
Definition Env : Type := nat -> forall R, Ext R -> Outcome R.

(** The identifier generator never gives the same identifier twice. *)
Definition uuid4_fresh (env : Env) : Prop :=
  forall i j id,
    env i string Uuid4 = Returns id -> env j string Uuid4 = Returns id -> i = j.

(** An environment in which no library call raises. *)
Definition all_return (env : Env) : Prop :=
  forall n R c, returned (env n R c) = true.

Inductive Logged : Type :=
| logged {R : Type} (c : Ext R) (o : Outcome R).

(** Selectors of library calls. *)
Definition is_start R (c : Ext R) : bool :=
  match c with BrowserStart _ _ => true | _ => false end.
Definition is_close R (c : Ext R) : bool :=
  match c with BrowserClose _ => true | _ => false end.
Definition is_create_task R (c : Ext R) : bool :=
  match c with AsyncioCreateTask => true | _ => false end.
Definition is_session R (c : Ext R) : bool :=
  match c with NewBrowserSession _ => true | _ => false end.
Definition is_llm R (c : Ext R) : bool :=
  match c with NewChatOpenAI _ => true | _ => false end.

(** How many of the logged calls selected by [sel] returned an object. *)
Fixpoint constructed (sel : forall R, Ext R -> bool) (log : list Logged) : nat :=
  match log with
  | [] => 0
  | logged c o :: log =>
      (if sel _ c && returned o then 1 else 0) + constructed sel log
  end.

Definition agent_text (l : Logged) : option string :=
  match l with
  | logged c _ => match c with NewAgent task _ _ => Some task | _ => None end
  end.

(** The instructions the agents were constructed with, latest first. *)
Definition agent_texts (log : list Logged) : list string :=
  omap agent_text log.

(** ** Programs *)

Section Programs.
Context {G : Type}.

(** A handler or coroutine over module state [G].  [Call] is a plain
    library call, [Await] an awaited library coroutine: the only
    place where the event loop may run something else. *)
Inductive Prog (A : Type) : Type :=
| Ret (a : A)
| Throw (e : Exc)
| Load (k : G -> Prog A)
| Modify (f : G -> G) (k : Prog A)
| Call {R : Type} (c : Ext R) (k : Outcome R -> Prog A)
| Await {R : Type} (c : Ext R) (k : Outcome R -> Prog A).
Arguments Ret {A} a.
Arguments Throw {A} e.
Arguments Load {A} k.
Arguments Modify {A} f k.
Arguments Call {A R} c k.
Arguments Await {A R} c k.

Fixpoint bind {A B} (p : Prog A) (f : A -> Prog B) : Prog B :=
  match p with
  | Ret a => f a
  | Throw e => Throw e
  | Load k => Load (fun g => bind (k g) f)
  | Modify m k => Modify m (bind k f)
  | Call c k => Call c (fun o => bind (k o) f)
  | Await c k => Await c (fun o => bind (k o) f)
  end.

(** [try: p  except Exception as e: h e] *)
Fixpoint try_except {A} (p : Prog A) (h : Exc -> Prog A) : Prog A :=
  match p with
  | Ret a => Ret a
  | Throw e => h e
  | Load k => Load (fun g => try_except (k g) h)
  | Modify m k => Modify m (try_except k h)
  | Call c k => Call c (fun o => try_except (k o) h)
  | Await c k => Await c (fun o => try_except (k o) h)
  end.

Definition outcome {A R} (o : Outcome R) (k : R -> Prog A) : Prog A :=
  match o with Returns r => k r | Raises e => Throw e end.

Definition load : Prog G := Load Ret.
Definition modify (f : G -> G) : Prog unit := Modify f (Ret tt).
Definition call {R} (c : Ext R) : Prog R := Call c (fun o => outcome o Ret).
Definition await {R} (c : Ext R) : Prog R := Await c (fun o => outcome o Ret).

(** The state of a run: module globals and the library calls so far,
    most recent first. *)
Record World : Type := {
  globals : G;
  calls : list Logged
}.

Definition answer (env : Env) {R} (c : Ext R) (w : World) : Outcome R :=
  env (length (calls w)) R c.

Definition record {R} (c : Ext R) (o : Outcome R) (w : World) : World :=
  {| globals := globals w; calls := logged c o :: calls w |}.

(** Run [p] without giving up the loop: up to its end or next [Await]. *)
Fixpoint exec (env : Env) {A} (p : Prog A) (w : World) : Prog A * World :=
  match p with
  | Ret _ | Throw _ | Await _ _ => (p, w)
  | Load k => exec env (k (globals w)) w
  | Modify f k => exec env k {| globals := f (globals w); calls := calls w |}
  | Call c k => let o := answer env c w in exec env (k o) (record c o w)
  end.

(** The loop resumes a coroutine: a suspended one gets the answer of
    the call it awaits, then runs on. *)
Definition resume (env : Env) {A} (p : Prog A) (w : World) : Prog A * World :=
  match p with
  | Await c k => let o := answer env c w in exec env (k o) (record c o w)
  | _ => exec env p w
  end.

(** Run to the end, resuming at most [fuel] times. *)
Fixpoint run (env : Env) (fuel : nat) {A} (p : Prog A) (w : World)
  : Prog A * World :=
  match fuel with
  | O => (p, w)
  | S n => let '(p', w') := resume env p w in run env n p' w'
  end.

Definition finished {A} (p : Prog A) : bool :=
  match p with Ret _ | Throw _ => true | _ => false end.

(** The agent whose [run()] a suspended coroutine awaits. *)
Definition awaits_run {A} (p : Prog A) : option Obj :=
  match p with
  | Await c _ => match c with AgentRun agent => Some agent | _ => None end
  | _ => None
  end.

(** How far a coroutine is: not started, suspended, done. *)
Definition stage {A} (p : Prog A) : nat :=
  match p with
  | Ret _ | Throw _ => 2
  | Await _ _ => 1
  | _ => 0
  end.

(** Where a coroutine stands among the awaits of an executor: before
    the first turn, at [start()], at [agent.run()], at [close()], done. *)
Definition position {A} (p : Prog A) : nat :=
  match p with
  | Await c _ =>
      match c with
      | BrowserStart _ _ => 1
      | AgentRun _ => 2
      | BrowserClose _ => 3
      | _ => 0
      end
  | Ret _ | Throw _ => 4
  | _ => 0
  end.

(** The globals after each update a turn makes, in order: the points
    in time of a turn, statement by statement. *)
Fixpoint snapshots (env : Env) {A} (p : Prog A) (w : World) : list G :=
  match p with
  | Ret _ | Throw _ | Await _ _ => []
  | Load k => snapshots env (k (globals w)) w
  | Modify f k =>
      f (globals w)
      :: snapshots env k {| globals := f (globals w); calls := calls w |}
  | Call c k => let o := answer env c w in snapshots env (k o) (record c o w)
  end.

(** The globals after each update of the turn [resume] makes. *)
Definition resume_snapshots (env : Env) {A} (p : Prog A) (w : World)
  : list G :=
  match p with
  | Await c k => let o := answer env c w in snapshots env (k o) (record c o w)
  | _ => snapshots env p w
  end.

(** The states a coroutine started as [p0] can be in between turns. *)
Inductive residual (env : Env) {A} (p0 : Prog A) : Prog A -> Prop :=
| residual_entry : residual env p0 p0
| residual_resume p w :
    residual env p0 p -> residual env p0 (resume env p w).1.

(** Every update of the globals made by the program is in [P]. *)
Inductive stable (P : G -> G -> Prop) {A} : Prog A -> Prop :=
| stable_Ret a : stable P (Ret a)
| stable_Throw e : stable P (Throw e)
| stable_Load k : (forall g, stable P (k g)) -> stable P (Load k)
| stable_Modify f k :
    (forall g, P g (f g)) -> stable P k -> stable P (Modify f k)
| stable_Call {R} (c : Ext R) k :
    (forall o, stable P (k o)) -> stable P (Call c k)
| stable_Await {R} (c : Ext R) k :
    (forall o, stable P (k o)) -> stable P (Await c k).

(** Coroutines sharing one event loop, each given a turn in the order
    of a schedule. *)
Definition give_turn (env : Env) {A} (st : list (Prog A) * World) (i : nat)
  : list (Prog A) * World :=
  match st.1 !! i with
  | None => st
  | Some p => let '(p', w') := resume env p st.2 in (<[i := p']> st.1, w')
  end.

Definition interleave (env : Env) {A} (sched : list nat)
    (st : list (Prog A) * World) : list (Prog A) * World :=
  fold_left (give_turn env) sched st.

(** An invariant of [n] coroutines sharing the loop: [world_ok] of the
    world, [caller] of each coroutine, and at least [pace] stages of
    progress for each turn a coroutine was given. *)
Definition pool_inv {A} (world_ok : World -> Prop)
    (caller : World -> Prog A -> Prop) (pace n : nat) (turns : nat -> nat)
    (st : list (Prog A) * World) : Prop :=
  world_ok st.2 /\ length st.1 = n
  /\ forall i p, st.1 !! i = Some p ->
        caller st.2 p /\ (pace * turns i) `min` 2 <= stage p.
End Programs.


Arguments Prog G A : clear implicits.
Arguments World G : clear implicits.
Arguments Ret {G A} a.
Arguments Throw {G A} e.
Arguments Load {G A} k.
Arguments Modify {G A} f k.
Arguments Call {G A R} c k.
Arguments Await {G A R} c k.
Arguments residual {G} env {A} p0 _.
Arguments stable {G} P {A} _.
Arguments pool_inv {G A} world_ok caller pace n turns st.

Global Instance Prog_bind {G} : MBind (Prog G) := fun A B f p => bind p f.
Global Instance Prog_ret {G} : MRet (Prog G) := fun A a => Ret a.

(** ** Request and response models, shared by both servers *)

Record TaskRequest : Type := {
  task : string;
  custom_task : option string
}.

Record TaskResponse : Type := {
  resp_task_id : string;
  resp_status : string;
  resp_message : string
}.

Record TaskStatus : Type := {
  ts_task_id : string;
  ts_status : string;
  ts_result : option PyDict;
  ts_error : option string
}.

(** Truthiness of an [Optional[str]]: [None] and [""] are falsy. *)
Definition truthy (s : option string) : bool :=
  match s with
  | None => false
  | Some s => negb (String.eqb s "")
  end.

Definition default_task : string := "
    1. Ve a https://www.guruwalk.com/es
    2. Haz clic en 'Iniciar sesión' o 'Login'.
    3. Haz clic en el botón que dice 'Seguir con contraseña' o similar.
    4. Cuando aparezcan los campos, ingresa el email: heredialucasfac22@gmail.com
    5. Ingresa la contraseña exacta: Lucas37312237. (incluye el punto al final)
    6. Haz clic en 'Iniciar sesión' para completar el login.
    7. Una vez dentro, navega a la sección 'Reservas'.
    8. Confirma que puedes ver el contenido de Reservas.
    9. Termina el flujo mostrando que fue exitoso.
    ".

(** [request.custom_task if request.custom_task else default_task] *)
Definition final_task (request : TaskRequest) : string :=
  match custom_task request with
  | Some s => if truthy (Some s) then s else default_task
  | None => default_task
  end.

(** ** server.py *)

Module Server.

Inductive Status : Type := pending | running | completed | failed.

Definition status_str (s : Status) : string :=
  match s with
  | pending => "pending"
  | running => "running"
  | completed => "completed"
  | failed => "failed"
  end.

(** A value of the [tasks] dictionary. *)
Record TaskRecord : Type := {
  status : Status;
  result : option PyDict;
  error : option string
}.

(** Module-level state. *)
Record Globals : Type := {
  tasks : gmap string TaskRecord;
  browser_session : option Obj;
  llm_model : option Obj
}.

Definition init : Globals :=
  {| tasks := ∅; browser_session := None; llm_model := None |}.

Definition set_tasks (f : gmap string TaskRecord -> gmap string TaskRecord)
    (g : Globals) : Globals :=
  {| tasks := f (tasks g);
     browser_session := browser_session g;
     llm_model := llm_model g |}.

Definition set_browser_session (b : option Obj) (g : Globals) : Globals :=
  {| tasks := tasks g; browser_session := b; llm_model := llm_model g |}.

Definition set_llm_model (l : option Obj) (g : Globals) : Globals :=
  {| tasks := tasks g; browser_session := browser_session g; llm_model := l |}.

Definition with_status (s : Status) (r : TaskRecord) : TaskRecord :=
  {| status := s; result := result r; error := error r |}.

Definition with_result (d : option PyDict) (r : TaskRecord) : TaskRecord :=
  {| status := status r; result := d; error := error r |}.

Definition with_error (e : option string) (r : TaskRecord) : TaskRecord :=
  {| status := status r; result := result r; error := e |}.

(** [tasks[task_id][field] = value]: [KeyError] when the id is absent,
    otherwise the record is updated in place. *)
Definition set_item (task_id : string) (f : TaskRecord -> TaskRecord)
    : Prog Globals unit :=
  g ← load;
  match tasks g !! task_id with
  | None => Throw (KeyError task_id)
  | Some _ => modify (set_tasks (alter f task_id))
  end.

Definition browser_args : list string :=
  [ "--no-sandbox"; "--disable-dev-shm-usage"; "--disable-gpu";
    "--disable-background-timer-throttling";
    "--disable-renderer-backgrounding";
    "--disable-backgrounding-occluded-windows";
    "--disable-extensions"; "--disable-plugins"; "--no-first-run";
    "--disable-default-apps" ].

(** The guarded part of [get_browser]: construct, cache, start. *)
Definition start_browser (profile : Obj) : Prog Globals unit :=
  session ← call (NewBrowserSession profile);
  modify (set_browser_session (Some session));;
  g ← load;
  match browser_session g with
  | Some b => await (BrowserStart b (Some 60))
  | None => Throw (PyException "AttributeError"
                     "'NoneType' object has no attribute 'start'")
  end.


Definition startup_failed (e : Exc) : Prog Globals unit :=
  match e with
  | TimeoutError => Throw (HTTPException 503 "Browser startup timeout")
  | _ => Throw (HTTPException 503 ("Browser unavailable: " +:+ str e))
  end.

Definition get_browser : Prog Globals (option Obj) :=
  g ← load;
  match browser_session g with
  | None =>
      call (Import "browser_use.browser");;
      profile ← call (NewBrowserProfile true None (Some false) browser_args);
      try_except (start_browser profile) startup_failed
  | Some _ => Ret tt
  end;;
  g ← load;
  Ret (browser_session g).

Definition get_llm : Prog Globals (option Obj) :=
  g ← load;
  match llm_model g with
  | None =>
      call (Import "browser_use.llm.openai.chat");;
      llm ← call (NewChatOpenAI "gpt-4o-mini");
      modify (set_llm_model (Some llm))
  | Some _ => Ret tt
  end;;
  g ← load;
  Ret (llm_model g).

Definition BackgroundTasks : Type := list (string * string).

Definition create_task (request : TaskRequest)
    (background_tasks : BackgroundTasks)
    : Prog Globals (TaskResponse * BackgroundTasks) :=
  task_id ← call Uuid4;
  let final_task := final_task request in
  modify (set_tasks (insert task_id
    {| status := pending; result := None; error := None |}));;
  let background_tasks := (background_tasks ++ [(task_id, final_task)])%list in
  Ret ({| resp_task_id := task_id;
          resp_status := "started";
          resp_message := "Task created successfully" |},
       background_tasks).

Definition get_task (task_id : string) : Prog Globals TaskStatus :=
  g ← load;
  match tasks g !! task_id with
  | None => Throw (HTTPException 404 "Task not found")
  | Some task =>
      Ret {| ts_task_id := task_id;
             ts_status := status_str (status task);
             ts_result := result task;
             ts_error := error task |}
  end.

Definition record_failure (task_id : string) (e : Exc) : Prog Globals unit :=
  set_item task_id (with_status failed);;
  set_item task_id (with_error (Some (str e))).

Definition run_task (task_id task_text : string) : Prog Globals unit :=
  try_except
    (set_item task_id (with_status running);;
     browser ← get_browser;
     llm ← get_llm;
     call (Import "browser_use");;
     agent ← call (NewAgent task_text llm browser);
     result ← await (AgentRun agent);
     set_item task_id (with_status completed);;
     usage ← outcome (usage_of result) Ret;
     set_item task_id
       (with_result (Some [("success", PBool true); ("usage", usage)])))
    (record_failure task_id).

(** What is left of [get_browser] once [start()] is awaited. *)
Definition get_browser_after_start (o : Outcome unit)
    : Prog Globals (option Obj) :=
  try_except (outcome o Ret) startup_failed;;
  g ← load;
  Ret (browser_session g).

(** What is left of [run_task] while it awaits [start()] inside
    [get_browser], and while it awaits [agent.run()]. *)
Definition run_task_after_start (task_id task_text : string)
    (o : Outcome unit) : Prog Globals unit :=
  try_except
    (browser ← get_browser_after_start o;
     llm ← get_llm;
     call (Import "browser_use");;
     agent ← call (NewAgent task_text llm browser);
     result ← await (AgentRun agent);
     set_item task_id (with_status completed);;
     usage ← outcome (usage_of result) Ret;
     set_item task_id
       (with_result (Some [("success", PBool true); ("usage", usage)])))
    (record_failure task_id).

Definition run_task_after_run (task_id : string)
    (o : Outcome (option AgentHistoryList)) : Prog Globals unit :=
  try_except
    (result ← outcome o Ret;
     set_item task_id (with_status completed);;
     usage ← outcome (usage_of result) Ret;
     set_item task_id
       (with_result (Some [("success", PBool true); ("usage", usage)])))
    (record_failure task_id).

Definition cold : World Globals := {| globals := init; calls := [] |}.

(** The record [create_task] inserts. *)
Definition new_record : TaskRecord :=
  {| status := pending; result := None; error := None |}.

(** Result and error agree with the status: none of them before the
    end, a result alone when [completed], an error alone when
    [failed]. *)
Definition consistent (r : TaskRecord) : Prop :=
  match status r with
  | pending | running => result r = None /\ error r = None
  | completed => is_Some (result r) /\ error r = None
  | failed => result r = None /\ is_Some (error r)
  end.

(** The place of a status in the life cycle. *)
Definition rank (s : Status) : nat :=
  match s with pending => 0 | running => 1 | completed | failed => 2 end.

(** How the record of an executor stands to the state the executor is
    in: as inserted before its first turn, [running] with neither
    result nor error while it is suspended, settled once it returned. *)
Definition executor_ok (task_id task_text : string)
    (p : Prog Globals unit) (r : TaskRecord) : Prop :=
  (p = run_task task_id task_text /\ r = new_record)
  \/ (((exists b, p = Await (BrowserStart b (Some 60))
                       (run_task_after_start task_id task_text))
       \/ (exists a, p = Await (AgentRun a) (run_task_after_run task_id)))
      /\ r = {| status := running; result := None; error := None |})
  \/ (p = Ret tt /\ rank (status r) = 2 /\ consistent r).

(** [GET /tasks]: the keys of [tasks] and their number.  The keys are
    given as a set: the order of the Python list (the order of
    insertion) is not kept. *)
Definition list_tasks : Prog Globals (gset string * nat) :=
  g ← load;
  Ret (dom (tasks g), size (tasks g)).

Definition is_running (t : TaskRecord) : bool :=
  match status t with running => true | _ => false end.

(** The body of [GET /health]. *)
Record Health : Type := {
  health_status : string;
  health_browser : string;
  health_active_tasks : nat;
  health_server : string
}.

(** ["ready" if browser_session else "not_started"]: a session object is
    truthy, [None] is not; [active_tasks] counts the values of [tasks]
    whose status is ["running"]. *)
Definition health : Prog Globals Health :=
  g ← load;
  Ret {| health_status := "healthy";
         health_browser :=
           match browser_session g with
           | Some _ => "ready"
           | None => "not_started"
           end;
         health_active_tasks :=
           length (List.filter is_running (map_to_list (tasks g)).*2);
         health_server := "online" |}.

(** The instruction [create_task] hands to [run_task]: the second
    argument of the background task it adds. *)
Definition handed_over (env : Env) (request : TaskRequest)
    (w : World Globals) : option string :=
  match exec env (create_task request []) w with
  | (Ret (_, background_tasks), _) => snd <$> last background_tasks
  | _ => None
  end.

(** Between turns [run_task] is at its entry, awaiting [start()],
    awaiting [agent.run()], or done. *)
Definition run_task_state (task_id task_text : string)
    (p : Prog Globals unit) : Prop :=
  p = run_task task_id task_text
  \/ (exists b, p = Await (BrowserStart b (Some 60))
                      (run_task_after_start task_id task_text))
  \/ (exists a, p = Await (AgentRun a) (run_task_after_run task_id))
  \/ finished p = true.

(** A record after the last turn of [run_task]: [completed] with a
    result and the error it had, or [failed] with the text of an
    exception and the result it had. *)
Definition settled (r r' : TaskRecord) : Prop :=
  (exists d, r' = {| status := completed; result := Some d;
                     error := error r |})
  \/ (exists e, r' = {| status := failed; result := result r;
                        error := Some (str e) |}).

(** A record after any other turn: untouched, or set to [running]. *)
Definition in_flight (r r' : TaskRecord) : Prop :=
  r' = r
  \/ r' = {| status := running; result := result r; error := error r |}.

(** A caller of [get_browser] in a world: not started, awaiting
    [start()] of the cached session, returned with the cached session,
    or failed (which takes a library call that raised). *)
Definition browser_caller (env : Env) (w : World Globals)
    (p : Prog Globals (option Obj)) : Prop :=
  p = get_browser
  \/ (exists b, p = Await (BrowserStart b (Some 60)) get_browser_after_start
                /\ browser_session (globals w) = Some b)
  \/ (exists b, p = Ret (Some b) /\ browser_session (globals w) = Some b)
  \/ (exists e, p = Throw e /\ ~ all_return env).

(** One [BrowserSession] was constructed exactly when one is cached. *)
Definition browser_world (w : World Globals) : Prop :=
  constructed is_session (calls w)
  = match browser_session (globals w) with Some _ => 1 | None => 0 end.

Definition llm_caller (env : Env) (w : World Globals)
    (p : Prog Globals (option Obj)) : Prop :=
  p = get_llm
  \/ (exists l, p = Ret (Some l) /\ llm_model (globals w) = Some l)
  \/ (exists e, p = Throw e /\ ~ all_return env).

Definition llm_world (w : World Globals) : Prop :=
  constructed is_llm (calls w)
  = match llm_model (globals w) with Some _ => 1 | None => 0 end.

End Server.

(** ** app.py *)

Module App.

Inductive Status : Type := pending | running | completed | failed.

Definition status_str (s : Status) : string :=
  match s with
  | pending => "pending"
  | running => "running"
  | completed => "completed"
  | failed => "failed"
  end.

(** A value of the [tasks] dictionary; here the text is kept in it. *)
Record TaskRecord : Type := {
  status : Status;
  task_text : string;
  result : option PyDict;
  error : option string
}.

(** Module-level state: the [tasks] dictionary only. *)
Record Globals : Type := {
  tasks : gmap string TaskRecord
}.

Definition init : Globals := {| tasks := ∅ |}.

Definition set_tasks (f : gmap string TaskRecord -> gmap string TaskRecord)
    (g : Globals) : Globals :=
  {| tasks := f (tasks g) |}.

Definition with_status (s : Status) (r : TaskRecord) : TaskRecord :=
  {| status := s; task_text := task_text r;
     result := result r; error := error r |}.

Definition with_result (d : option PyDict) (r : TaskRecord) : TaskRecord :=
  {| status := status r; task_text := task_text r;
     result := d; error := error r |}.

Definition with_error (e : option string) (r : TaskRecord) : TaskRecord :=
  {| status := status r; task_text := task_text r;
     result := result r; error := e |}.

Definition set_item (task_id : string) (f : TaskRecord -> TaskRecord)
    : Prog Globals unit :=
  g ← load;
  match tasks g !! task_id with
  | None => Throw (KeyError task_id)
  | Some _ => modify (set_tasks (alter f task_id))
  end.

(** [tasks[task_id]["task"]] *)
Definition get_text (task_id : string) : Prog Globals string :=
  g ← load;
  match tasks g !! task_id with
  | None => Throw (KeyError task_id)
  | Some r => Ret (task_text r)
  end.

Definition browser_args : list string :=
  [ "--no-sandbox"; "--disable-dev-shm-usage"; "--disable-gpu";
    "--disable-extensions"; "--no-first-run" ].

Definition record_failure (task_id : string) (e : Exc) : Prog Globals unit :=
  set_item task_id (with_status failed);;
  set_item task_id (with_error (Some (str e))).

Definition _async_run_task (task_id : string) : Prog Globals unit :=
  try_except
    (set_item task_id (with_status running);;
     call (Import "browser_use");;
     call (Import "browser_use.browser");;
     call (Import "browser_use.llm.openai.chat");;
     profile ← call (NewBrowserProfile true None None browser_args);
     browser ← call (NewBrowserSession profile);
     await (BrowserStart browser None);;
     llm ← call (NewChatOpenAI "gpt-4o-mini");
     text ← get_text task_id;
     agent ← call (NewAgent text (Some llm) (Some browser));
     _ ← await (AgentRun agent);
     set_item task_id (with_status completed);;
     set_item task_id (with_result (Some [("success", PBool true)]));;
     await (BrowserClose browser))
    (record_failure task_id).

(** [asyncio.create_task(_async_run_task(task_id))]: the coroutine
    joins the running loop's tasks when the calling thread has one;
    otherwise [asyncio.create_task] raises and nothing is scheduled.
    The function has no handler of its own. *)
Definition run_agent_task (task_id : string)
    : Prog Globals (list (Prog Globals unit)) :=
  call AsyncioCreateTask;;
  Ret [_async_run_task task_id].

Definition BackgroundTasks : Type := list string.

Definition create_task (request : TaskRequest)
    (background_tasks : BackgroundTasks)
    : Prog Globals (TaskResponse * BackgroundTasks) :=
  task_id ← call Uuid4;
  let final_task := final_task request in
  modify (set_tasks (insert task_id
    {| status := pending; task_text := final_task;
       result := None; error := None |}));;
  let background_tasks := (background_tasks ++ [task_id])%list in
  Ret ({| resp_task_id := task_id;
          resp_status := "started";
          resp_message := "Task created successfully" |},
       background_tasks).

Definition get_task (task_id : string) : Prog Globals TaskStatus :=
  g ← load;
  match tasks g !! task_id with
  | None => Throw (HTTPException 404 "Task not found")
  | Some task =>
      Ret {| ts_task_id := task_id;
             ts_status := status_str (status task);
             ts_result := result task;
             ts_error := error task |}
  end.

(** What is left of [_async_run_task] at each of its three awaits. *)
Definition after_start (task_id : string) (browser : Obj)
    (o : Outcome unit) : Prog Globals unit :=
  try_except
    (outcome o Ret;;
     llm ← call (NewChatOpenAI "gpt-4o-mini");
     text ← get_text task_id;
     agent ← call (NewAgent text (Some llm) (Some browser));
     _ ← await (AgentRun agent);
     set_item task_id (with_status completed);;
     set_item task_id (with_result (Some [("success", PBool true)]));;
     await (BrowserClose browser))
    (record_failure task_id).

Definition after_run (task_id : string) (browser : Obj)
    (o : Outcome (option AgentHistoryList)) : Prog Globals unit :=
  try_except
    (_ ← outcome o Ret;
     set_item task_id (with_status completed);;
     set_item task_id (with_result (Some [("success", PBool true)]));;
     await (BrowserClose browser))
    (record_failure task_id).

Definition after_close (task_id : string) (o : Outcome unit)
    : Prog Globals unit :=
  try_except (outcome o Ret) (record_failure task_id).

(** [GET /tasks]: the keys of [tasks] and their number.  The keys are
    given as a set: the order of the Python list (the order of
    insertion) is not kept. *)
Definition list_tasks : Prog Globals (gset string * nat) :=
  g ← load;
  Ret (dom (tasks g), size (tasks g)).

(** [GET /health]: the status and [tasks_count]. *)
Definition health : Prog Globals (string * nat) :=
  g ← load;
  Ret ("healthy", size (tasks g)).

(** The instruction [create_task] hands to [_async_run_task]: the
    ["task"] entry of the record it inserts. *)
Definition handed_over (env : Env) (request : TaskRequest)
    (w : World Globals) : option string :=
  match exec env (create_task request []) w with
  | (Ret (resp, _), w') =>
      task_text <$> tasks (globals w') !! resp_task_id resp
  | _ => None
  end.

(** Between turns [_async_run_task] is at its entry, at one of its
    three awaits, or done. *)
Definition task_state (task_id : string) (p : Prog Globals unit) : Prop :=
  p = _async_run_task task_id
  \/ (exists b, p = Await (BrowserStart b None) (after_start task_id b))
  \/ (exists a b, p = Await (AgentRun a) (after_run task_id b))
  \/ (exists b, p = Await (BrowserClose b) (after_close task_id))
  \/ finished p = true.

(** The value stored under ["result"] on success. *)
Definition success_result : PyDict := [("success", PBool true)].

(** What a record holds at each status: no result and no error while
    [pending] or [running], the success result and no error when
    [completed], an error when [failed]. *)
Definition consistent (r : TaskRecord) : Prop :=
  match status r with
  | pending | running => result r = None /\ error r = None
  | completed => result r = Some success_result /\ error r = None
  | failed =>
      is_Some (error r) /\ (result r = None \/ result r = Some success_result)
  end.

(** The order in which a record passes through its statuses. *)
Definition rank (s : Status) : nat :=
  match s with pending => 0 | running => 1 | completed => 2 | failed => 3 end.

(** A record is untouched: as [create_task] stored it. *)
Definition untouched (r : TaskRecord) : Prop :=
  status r = pending /\ result r = None /\ error r = None.

(** How the record of a task stands to its coroutine between turns. *)
Definition executor_ok (task_id : string) (p : Prog Globals unit)
    (r : TaskRecord) : Prop :=
  (p = _async_run_task task_id /\ untouched r)
  \/ (((exists b, p = Await (BrowserStart b None) (after_start task_id b))
       \/ (exists a b, p = Await (AgentRun a) (after_run task_id b)))
      /\ status r = running /\ result r = None /\ error r = None)
  \/ ((exists b, p = Await (BrowserClose b) (after_close task_id))
      /\ status r = completed /\ result r = Some success_result
      /\ error r = None)
  \/ (p = Ret tt /\ 2 <= rank (status r) /\ consistent r).

End App.

(** ** The process: request handlers, background tasks, event loop *)

Definition result_of {G A} (p : Prog G A) : option (Outcome A) :=
  match p with
  | Ret a => Some (Returns a)
  | Throw e => Some (Raises e)
  | _ => None
  end.

Section Process.
Context {G B : Type}.
(** The [POST /tasks] handler and what the framework does with an entry
    of [background_tasks] once the response is sent. *)
Variable create : TaskRequest -> list B -> Prog G (TaskResponse * list B).
Variable launch : B -> Prog G (list (Prog G unit)).

Record Process : Type := {
  world : World G;
  background : list B;
  loop : list (Prog G unit);
  responses : list TaskResponse;
  escaped : list Exc
}.

Inductive Event : Type :=
| Submit (request : TaskRequest)
| Dispatch
| Resume (i : nat).

Definition boot (g : G) : Process :=
  {| world := {| globals := g; calls := [] |};
     background := []; loop := []; responses := []; escaped := [] |}.

Definition submit (env : Env) (request : TaskRequest) (s : Process) : Process :=
  let '(p, w) := exec env (create request []) (world s) in
  match result_of p with
  | Some (Returns (resp, bts)) =>
      {| world := w; background := background s ++ bts; loop := loop s;
         responses := responses s ++ [resp]; escaped := escaped s |}
  | Some (Raises e) =>
      {| world := w; background := background s; loop := loop s;
         responses := responses s; escaped := escaped s ++ [e] |}
  | None =>
      {| world := w; background := background s; loop := loop s;
         responses := responses s; escaped := escaped s |}
  end.

Definition dispatch (env : Env) (s : Process) : Process :=
  match background s with
  | [] => s
  | b :: rest =>
      let '(p, w) := exec env (launch b) (world s) in
      match result_of p with
      | Some (Returns ps) =>
          {| world := w; background := rest; loop := loop s ++ ps;
             responses := responses s; escaped := escaped s |}
      | Some (Raises e) =>
          {| world := w; background := rest; loop := loop s;
             responses := responses s; escaped := escaped s ++ [e] |}
      | None =>
          {| world := w; background := rest; loop := loop s;
             responses := responses s; escaped := escaped s |}
      end
  end.

(** One turn of the event loop given to the [i]-th background
    coroutine.  What a finished coroutine raised goes to the loop. *)
Definition turn (env : Env) (i : nat) (s : Process) : Process :=
  match loop s !! i with
  | None => s
  | Some p =>
      if finished p then s else
      let '(p', w) := resume env p (world s) in
      {| world := w; background := background s;
         loop := <[i := p']> (loop s);
         responses := responses s;
         escaped := match p' with
                    | Throw e => escaped s ++ [e]
                    | _ => escaped s
                    end |}
  end.

Definition step (env : Env) (s : Process) (ev : Event) : Process :=
  match ev with
  | Submit request => submit env request s
  | Dispatch => dispatch env s
  | Resume i => turn env i s
  end.

Definition steps (env : Env) (evs : list Event) (s : Process) : Process :=
  fold_left (step env) evs s.
End Process.

Arguments Process G B : clear implicits.

(** What holds of a process whatever the requests and the schedule:
    the dictionary holds exactly the identifiers handed out, background
    coroutines only update records in place, and every key came from
    the identifier generator. *)
Definition process_inv {G B} (keys : G -> gset string) (env : Env)
    (s : Process G B) : Prop :=
  keys (globals (world s)) = list_to_set (resp_task_id <$> responses s)
  /\ Forall (stable (fun g g' => keys g' = keys g)) (loop s)
  /\ forall id, id ∈ keys (globals (world s)) ->
        exists n, n < length (calls (world s))
                  /\ env n string Uuid4 = Returns id.

Definition server_launch (b : string * string)
    : Prog Server.Globals (list (Prog Server.Globals unit)) :=
  Ret [Server.run_task b.1 b.2].

Definition server_steps (env : Env) (evs : list Event)
    : Process Server.Globals (string * string) :=
  steps Server.create_task server_launch env evs (boot Server.init).

Definition app_steps (env : Env) (evs : list Event)
    : Process App.Globals string :=
  steps App.create_task App.run_agent_task env evs (boot App.init).

(** What [server.py] keeps when identifiers never repeat: every
    background task and every coroutine on the loop owns one record,
    no two of them the same, the records are exactly theirs, and each
    record stands to its executor as [executor_ok] says. *)
Definition lifecycle_inv (s : Process Server.Globals (string * string))
    : Prop :=
  exists owners : list (string * string),
    length owners = length (loop s)
    /\ NoDup ((owners ++ background s)%list.*1)
    /\ (forall id, is_Some (Server.tasks (globals (world s)) !! id)
                   <-> id ∈ (owners ++ background s)%list.*1)
    /\ (forall b, b ∈ background s ->
          Server.tasks (globals (world s)) !! b.1 = Some Server.new_record)
    /\ (forall i b p, owners !! i = Some b -> loop s !! i = Some p ->
          exists r, Server.tasks (globals (world s)) !! b.1 = Some r
                    /\ Server.executor_ok b.1 b.2 p r).

(** What [app.py] keeps when identifiers never repeat.  Besides the
    owners of the coroutines on the loop and the background tasks still
    waiting there are the records whose background task raised before
    any coroutine was scheduled: they stay as they were stored. *)
Definition app_lifecycle_inv (s : Process App.Globals string) : Prop :=
  exists owners orphans : list string,
    length owners = length (loop s)
    /\ NoDup (owners ++ orphans ++ background s)%list
    /\ (forall id, is_Some (App.tasks (globals (world s)) !! id)
                   <-> id ∈ (owners ++ orphans ++ background s)%list)
    /\ (forall b, b ∈ (orphans ++ background s)%list ->
          exists r, App.tasks (globals (world s)) !! b = Some r
                    /\ App.untouched r)
    /\ (forall i b p, owners !! i = Some b -> loop s !! i = Some p ->
          exists r, App.tasks (globals (world s)) !! b = Some r
                    /\ App.executor_ok b p r).

(** Every instruction in the process satisfies [ok]: those waiting in
    the background tasks, those the coroutines of the loop were given,
    and those the agents were constructed with. *)
Definition server_texts_inv (ok : string -> Prop)
    (s : Process Server.Globals (string * string)) : Prop :=
  Forall (fun b => ok b.2) (background s)
  /\ Forall (fun p => exists task_id task_text,
                ok task_text /\ Server.run_task_state task_id task_text p)
       (loop s)
  /\ Forall ok (agent_texts (calls (world s))).

Definition app_texts_inv (ok : string -> Prop)
    (s : Process App.Globals string) : Prop :=
  (forall task_id r, App.tasks (globals (world s)) !! task_id = Some r ->
     ok (App.task_text r))
  /\ Forall (fun p => exists task_id, App.task_state task_id p) (loop s)
  /\ Forall ok (agent_texts (calls (world s))).

(** ** Environments *)

(** Every library call returns: ids and objects are numbered by the
    call that made them, the agent returns no history. *)
Definition all_fine : Env := fun n R c =>
  match c in Ext R return Outcome R with
  | Uuid4 => Returns (pretty n)
  | Import _ => Returns tt
  | NewBrowserProfile _ _ _ _ => Returns n
  | NewBrowserSession _ => Returns n
  | BrowserStart _ _ => Returns tt
  | BrowserClose _ => Returns tt
  | NewChatOpenAI _ => Returns n
  | NewAgent _ _ _ => Returns n
  | AgentRun _ => Returns None
  | AsyncioCreateTask => Returns tt
  end.

(** As [all_fine], but the agent returns a history whose [usage]
    attribute cannot be read. *)
Definition broken_usage : Env := fun n R c =>
  match c in Ext R return Outcome R with
  | AgentRun _ =>
      Returns (Some {| history_bool := true;
                       usage := Raises (PyException "AttributeError"
                         "'AgentHistoryList' object has no attribute 'usage'")
                    |})
  | c => all_fine n _ c
  end.

(** [env], except that the calls selected by [sel] raise [e]. *)
Definition raising (sel : forall R, Ext R -> bool) (e : Exc) (env : Env) : Env :=
  fun n R c => if sel R c then Raises e else env n R c.



(** * Properties *)

(** ** Programs and turns *)

Section ProgramFacts.
Context {G : Type}.
Implicit Types (env : Env) (w : World G).

Lemma exec_finished env {A} (p : Prog G A) w :
  finished p = true -> exec env p w = (p, w).
Proof. by destruct p. Qed.

Lemma resume_finished env {A} (p : Prog G A) w :
  finished p = true -> resume env p w = (p, w).
Proof. by destruct p. Qed.

(** The log only grows. *)
Lemma exec_calls env {A} (p : Prog G A) w :
  exists l, calls (exec env p w).2 = (l ++ calls w)%list.
Proof.
  revert w. induction p as [a|e|k IH|f k IH|R c k IH|R c k IH]; intros w;
    cbn; try (by exists []).
  - apply IH.
  - destruct (IH {| globals := f (globals w); calls := calls w |}) as [l Hl].
    by exists l.
  - destruct (IH (answer env c w) (record c (answer env c w) w)) as [l Hl].
    exists (l ++ [logged c (answer env c w)])%list.
    by rewrite Hl, <- app_assoc.
Qed.

Lemma resume_calls env {A} (p : Prog G A) w :
  exists l, calls (resume env p w).2 = (l ++ calls w)%list.
Proof.
  destruct p as [a|e|k|f k|R c k|R c k]; try apply exec_calls.
  cbn. destruct (exec_calls env (k (answer env c w))
                   (record c (answer env c w) w)) as [l Hl].
  exists (l ++ [logged c (answer env c w)])%list.
  by rewrite Hl, <- app_assoc.
Qed.

Lemma exec_calls_length env {A} (p : Prog G A) w :
  length (calls w) <= length (calls (exec env p w).2).
Proof.
  destruct (exec_calls env p w) as [l ->]. rewrite length_app. lia.
Qed.

Lemma resume_calls_length env {A} (p : Prog G A) w :
  length (calls w) <= length (calls (resume env p w).2).
Proof.
  destruct (resume_calls env p w) as [l ->]. rewrite length_app. lia.
Qed.

Section Stable.
Variable P : G -> G -> Prop.
Hypothesis P_refl : forall g, P g g.
Hypothesis P_trans : forall g1 g2 g3, P g1 g2 -> P g2 g3 -> P g1 g3.

Lemma stable_bind {A B} (p : Prog G A) (f : A -> Prog G B) :
  stable P p -> (forall a, stable P (f a)) -> stable P (bind p f).
Proof.
  intros Hp Hf. induction Hp; cbn; try by constructor.
  apply Hf.
Qed.

Lemma stable_try_except {A} (p : Prog G A) (h : Exc -> Prog G A) :
  stable P p -> (forall e, stable P (h e)) -> stable P (try_except p h).
Proof.
  intros Hp Hh. induction Hp; cbn; try by constructor.
  apply Hh.
Qed.

Lemma stable_outcome {A R} (o : Outcome R) (k : R -> Prog G A) :
  (forall r, stable P (k r)) -> stable P (outcome o k).
Proof. intros Hk. destruct o; cbn; [apply Hk | constructor]. Qed.

Lemma exec_stable env {A} (p : Prog G A) w :
  stable P p ->
  stable P (exec env p w).1 /\ P (globals w) (globals (exec env p w).2).
Proof.
  intros Hp. revert w.
  induction Hp as [a|e|k _ IH|f k Hf _ IH|R c k _ IH|R c k Hk _];
    intros w; cbn.
  - split; [constructor | apply P_refl].
  - split; [constructor | apply P_refl].
  - apply IH.
  - destruct (IH {| globals := f (globals w); calls := calls w |})
      as [H1 H2].
    split; [done|]. eapply P_trans; [apply Hf | exact H2].
  - apply (IH (answer env c w) (record c (answer env c w) w)).
  - split; [by constructor | apply P_refl].
Qed.

Lemma resume_stable env {A} (p : Prog G A) w :
  stable P p ->
  stable P (resume env p w).1 /\ P (globals w) (globals (resume env p w).2).
Proof.
  intros Hp. destruct Hp; try (apply exec_stable; by constructor).
  cbn. apply (exec_stable env (k (answer env c w))
                (record c (answer env c w) w)). auto.
Qed.
End Stable.

Lemma raised_not_all_return env {R} (c : Ext R) w e :
  answer env c w = Raises e -> ~ all_return env.
Proof.
  intros Ha Hall. specialize (Hall (length (calls w)) R c).
  unfold answer in Ha. by rewrite Ha in Hall.
Qed.

(** Coroutines sharing the loop keep an invariant that each turn
    keeps, and each turn given to a coroutine takes it further. *)
Section Pool.
Context {A : Type}.
Variable env : Env.
Variable world_ok : World G -> Prop.
Variable caller : World G -> Prog G A -> Prop.
Variable pace : nat.
Hypothesis turn_ok : forall w p p' w',
  world_ok w -> caller w p -> resume env p w = (p', w') ->
  world_ok w' /\ caller w' p'
  /\ (forall q, caller w q -> caller w' q)
  /\ (pace + stage p) `min` 2 <= stage p'.

Lemma pool_inv_turn n turns st i :
  pool_inv world_ok caller pace n turns st ->
  pool_inv world_ok caller pace n
    (fun j => if decide (j = i) then S (turns j) else turns j)
    (give_turn env st i).
Proof.
  intros (Hw & Hlen & Hall). unfold give_turn.
  destruct (st.1 !! i) as [p|] eqn:Hi.
  - destruct (resume env p st.2) as [p' w'] eqn:Hr.
    destruct (Hall i p Hi) as [Hp Hs].
    destruct (turn_ok _ _ _ _ Hw Hp Hr) as (Hw' & Hp' & Hmono & Hstage).
    split_and!; cbn [fst snd]; [done | by rewrite length_insert |].
    intros j q Hj. destruct (decide (j = i)) as [->|Hne].
    + rewrite list_lookup_insert_eq in Hj
        by (by eapply lookup_lt_Some). simplify_eq.
      split; [done | lia].
    + rewrite list_lookup_insert_ne in Hj by done.
      destruct (Hall j q Hj). split; [by apply Hmono | done].
  - split_and!; [done..|]. intros j q Hj.
    destruct (decide (j = i)) as [->|Hne]; [congruence|]. by apply Hall.
Qed.

Lemma pool_inv_interleave n sched : forall turns st,
  pool_inv world_ok caller pace n turns st ->
  pool_inv world_ok caller pace n
    (fun j => turns j + count_occ Nat.eq_dec sched j)
    (interleave env sched st).
Proof.
  induction sched as [|i sched IH]; intros turns st Hinv.
  - destruct Hinv as (? & ? & Hall). split_and!; [done..|].
    intros j q Hj. cbn. rewrite Nat.add_0_r. by apply Hall.
  - apply (pool_inv_turn _ _ _ i), IH in Hinv.
    destruct Hinv as (? & ? & Hall). split_and!; [done..|].
    intros j q Hj. destruct (Hall j q Hj) as [? Hs]. split; [done|].
    cbn [count_occ]. destruct (Nat.eq_dec i j), (decide (j = i)); lia.
Qed.
End Pool.
End ProgramFacts.

(** ** Symbolic execution of a turn *)

Ltac unfold_turn :=
  cbn [exec resume bind try_except outcome load modify call await
       mbind mret Prog_bind Prog_ret fst snd globals calls record finished
       Server.run_task Server.get_browser Server.get_llm Server.set_item
       Server.start_browser Server.startup_failed Server.record_failure
       Server.run_task_after_start Server.run_task_after_run
       Server.get_browser_after_start Server.create_task Server.get_task
       Server.tasks Server.browser_session Server.llm_model
       Server.set_tasks Server.set_browser_session Server.set_llm_model
       App._async_run_task App.set_item App.get_text App.record_failure
       App.after_start App.after_run App.after_close App.run_agent_task
       App.create_task App.get_task App.tasks App.set_tasks
       option_fmap option_map fmap].

Ltac run_prog :=
  unfold_turn;
  repeat (first
    [ rewrite lookup_alter_eq
    | rewrite lookup_insert_eq
    | match goal with
      | H : ?x = _ |- context [?x] => rewrite H
      end ];
    unfold_turn).

(** Case analysis on what the turn consults next: the answer of a
    library call, a dictionary lookup, a cached singleton. *)
Ltac split_turn :=
  first
  [ match goal with
    | |- context [answer ?env ?c ?w] =>
        destruct (answer env c w) as [?|?] eqn:?
    end
  | match goal with
    | |- context [outcome ?x _] => destruct x as [?|?] eqn:?
    end
  | match goal with
    | |- context [match ?m !! ?i with _ => _ end] =>
        destruct (m !! i) as [?|] eqn:?
    end
  | match goal with
    | |- context [match Server.browser_session ?g with _ => _ end] =>
        destruct (Server.browser_session g) as [?|] eqn:?
    end
  | match goal with
    | |- context [match Server.llm_model ?g with _ => _ end] =>
        destruct (Server.llm_model g) as [?|] eqn:?
    end
  | match goal with
    | |- context [Server.startup_failed ?e] => is_var e; destruct e
    end ].

Ltac run_turn := run_prog; repeat (split_turn; run_prog).

Ltac close_texts :=
  intros [= <- <-]; unfold agent_texts;
  cbn [calls record omap list_omap agent_text]; auto.

(** ** server.py: turns of [run_task] *)

Module ServerFacts.
Import Server.

Ltac close_state :=
  unfold run_task_state;
  first [ by (right; right; right)
        | by (right; left; eexists)
        | by (right; right; left; eexists) ].

Lemma run_task_residual env task_id task_text p :
  residual env (run_task task_id task_text) p ->
  run_task_state task_id task_text p.
Proof.
  induction 1 as [|p w _ IH]; [by left|].
  destruct IH as [->|[[b ->]|[[a ->]|Hfin]]].
  - run_turn; close_state.
  - run_turn; close_state.
  - run_turn; close_state.
  - rewrite resume_finished by done. by right; right; right.
Qed.

Ltac close_record :=
  intros [= <- <-]; run_prog; eexists; (split; [reflexivity|]);
  unfold settled, in_flight, with_status, with_result, with_error;
  cbn [status result error];
  first [ by eauto | by (right; eexists (HTTPException 503 _)) ].

(** No exception leaves a turn of [run_task] whose record exists, and
    the last turn leaves the record [completed] or [failed]. *)
Lemma run_task_turn env task_id task_text p w r p' w' :
  run_task_state task_id task_text p ->
  finished p = false ->
  tasks (globals w) !! task_id = Some r ->
  resume env p w = (p', w') ->
  exists r',
    tasks (globals w') !! task_id = Some r'
    /\ match p' with
       | Ret _ => settled r r'
       | Throw _ => False
       | _ => in_flight r r'
       end.
Proof.
  intros [->|[[b ->]|[[a ->]|Hfin]]] Hp Hr; [| | |congruence].
  - run_turn; close_record.
  - run_turn; close_record.
  - run_turn; close_record.
Qed.

(** The agent is constructed with the text [run_task] was given. *)
Lemma run_task_agent_text env task_id task_text p w p' w' :
  run_task_state task_id task_text p ->
  resume env p w = (p', w') ->
  agent_texts (calls w') = agent_texts (calls w)
  \/ agent_texts (calls w') = task_text :: agent_texts (calls w).
Proof.
  intros [->|[[b ->]|[[a ->]|Hfin]]].
  - run_turn; close_texts.
  - run_turn; close_texts.
  - run_turn; close_texts.
  - rewrite resume_finished by done. intros [= <- <-]. by left.
Qed.

(** When [agent.run()] returns and the usage is read, the turn ends the
    coroutine with the record [completed]. *)
Lemma run_task_run_returns env task_id a w r h u :
  tasks (globals w) !! task_id = Some r ->
  answer env (AgentRun a) w = Returns h ->
  usage_of h = Returns u ->
  exists w',
    resume env (Await (AgentRun a) (run_task_after_run task_id)) w
      = (Ret tt, w')
    /\ tasks (globals w') !! task_id =
         Some {| status := completed;
                 result := Some [("success", PBool true); ("usage", u)];
                 error := error r |}.
Proof.
  intros Hr Ha Hu. run_turn. eexists; split; [reflexivity|]. run_prog. done.
Qed.

(** A cached session is returned as it is, without any library call. *)
Lemma get_browser_cached env w b :
  browser_session (globals w) = Some b ->
  exec env get_browser w = (Ret (Some b), w).
Proof. intros Hb. run_turn. by destruct w. Qed.

(** A [start()] that raises leaves the module state as it was: the
    session assigned before the [await] stays cached. *)
Lemma get_browser_start_raises env w b e :
  answer env (BrowserStart b (Some 60)) w = Raises e ->
  exists e' w',
    resume env (Await (BrowserStart b (Some 60)) get_browser_after_start) w
      = (Throw e', w')
    /\ globals w' = globals w.
Proof. intros Ha. run_turn; by eexists _, _. Qed.

Ltac close_caller :=
  intros [= <- <-]; unfold browser_world, browser_caller;
  cbn [constructed is_session returned andb globals calls record
       browser_session set_browser_session stage];
  repeat match goal with H : ?x = _ |- context [?x] => rewrite H end;
  split_and!;
  [ lia
  | first [ by left
          | by (right; left; eexists)
          | by (right; right; left; eexists)
          | by (right; right; right; eauto)
          | right; right; right; eexists; split; [done|];
            by eapply raised_not_all_return ]
  | by (intros; simplify_eq)
  | cbn; lia ].

Lemma browser_turn env w p p' w' :
  browser_world w -> browser_caller env w p ->
  resume env p w = (p', w') ->
  browser_world w' /\ browser_caller env w' p'
  /\ (forall b, browser_session (globals w) = Some b ->
                browser_session (globals w') = Some b)
  /\ (1 + stage p) `min` 2 <= stage p'.
Proof.
  intros Hw Hp. unfold browser_world in Hw.
  destruct (browser_session (globals w)) as [s|] eqn:Hs;
    destruct Hp as [->|[(b & -> & Hb)|[(b & -> & Hb)|(e & -> & He)]]];
    try congruence; run_turn; close_caller.
Qed.

Lemma browser_caller_mono env w w' q :
  (forall b, browser_session (globals w) = Some b ->
             browser_session (globals w') = Some b) ->
  browser_caller env w q -> browser_caller env w' q.
Proof.
  intros Hmono [->|[(b & -> & Hb)|[(b & -> & Hb)|(e & -> & He)]]];
    unfold browser_caller; eauto 10.
Qed.

Ltac close_llm_caller :=
  intros [= <- <-]; unfold llm_world, llm_caller;
  cbn [constructed is_llm returned andb globals calls record
       llm_model set_llm_model stage];
  repeat match goal with H : ?x = _ |- context [?x] => rewrite H end;
  split_and!;
  [ lia
  | first [ by left
          | by (right; left; eexists)
          | by (right; right; eauto)
          | right; right; eexists; split; [done|];
            by eapply raised_not_all_return ]
  | by (intros; simplify_eq)
  | cbn; lia ].

Lemma llm_turn env w p p' w' :
  llm_world w -> llm_caller env w p ->
  resume env p w = (p', w') ->
  llm_world w' /\ llm_caller env w' p'
  /\ (forall l, llm_model (globals w) = Some l ->
                llm_model (globals w') = Some l)
  /\ (2 + stage p) `min` 2 <= stage p'.
Proof.
  intros Hw Hp. unfold llm_world in Hw.
  destruct (llm_model (globals w)) as [s|] eqn:Hs;
    destruct Hp as [->|[(b & -> & Hb)|(e & -> & He)]];
    try congruence; run_turn; close_llm_caller.
Qed.

Lemma llm_caller_mono env w w' q :
  (forall l, llm_model (globals w) = Some l ->
             llm_model (globals w') = Some l) ->
  llm_caller env w q -> llm_caller env w' q.
Proof.
  intros Hmono [->|[(b & -> & Hb)|(e & -> & He)]];
    unfold llm_caller; eauto 10.
Qed.

(** Any number of [get_browser] callers, cold start, any schedule. *)
Lemma browser_race env n sched :
  pool_inv browser_world (browser_caller env) 1 n
    (fun j => count_occ Nat.eq_dec sched j)
    (interleave env sched (replicate n get_browser, cold)).
Proof.
  apply (pool_inv_interleave env browser_world (browser_caller env) 1
           (fun w p p' w' Hw Hp Hr =>
              match browser_turn env w p p' w' Hw Hp Hr with
              | conj H1 (conj H2 (conj H3 H4)) =>
                  conj H1 (conj H2
                    (conj (fun q => browser_caller_mono env w w' q H3) H4))
              end)
           n sched (fun _ => 0)).
  split_and!; [done | apply length_replicate |].
  intros i p [-> _]%lookup_replicate. split; [by left | cbn; lia].
Qed.

Lemma llm_race env n sched :
  pool_inv llm_world (llm_caller env) 2 n
    (fun j => count_occ Nat.eq_dec sched j)
    (interleave env sched (replicate n get_llm, cold)).
Proof.
  apply (pool_inv_interleave env llm_world (llm_caller env) 2
           (fun w p p' w' Hw Hp Hr =>
              match llm_turn env w p p' w' Hw Hp Hr with
              | conj H1 (conj H2 (conj H3 H4)) =>
                  conj H1 (conj H2
                    (conj (fun q => llm_caller_mono env w w' q H3) H4))
              end)
           n sched (fun _ => 0)).
  split_and!; [done | apply length_replicate |].
  intros i p [-> _]%lookup_replicate. split; [by left | cbn; lia].
Qed.
End ServerFacts.

(** ** app.py: turns of [_async_run_task] *)

Module AppFacts.
Import App.

Ltac close_state :=
  unfold task_state;
  first [ by (do 4 right)
        | by (right; left; eexists)
        | by (right; right; left; do 2 eexists)
        | by (right; right; right; left; eexists) ].

Lemma async_run_task_residual env task_id p :
  residual env (_async_run_task task_id) p -> task_state task_id p.
Proof.
  induction 1 as [|p w _ IH]; [by left|].
  destruct IH as [->|[[b ->]|[(a & b & ->)|[[b ->]|Hfin]]]].
  - run_turn; close_state.
  - run_turn; close_state.
  - run_turn; close_state.
  - run_turn; close_state.
  - rewrite resume_finished by done. by do 4 right.
Qed.

(** The agent is constructed with the text kept in the record. *)
Lemma async_run_task_agent_text env task_id p w r p' w' :
  task_state task_id p ->
  tasks (globals w) !! task_id = Some r ->
  resume env p w = (p', w') ->
  agent_texts (calls w') = agent_texts (calls w)
  \/ agent_texts (calls w') = task_text r :: agent_texts (calls w).
Proof.
  intros [->|[[b ->]|[(a & b & ->)|[[b ->]|Hfin]]]] Hr.
  - run_turn; close_texts.
  - run_turn; close_texts.
  - run_turn; close_texts.
  - run_turn; close_texts.
  - rewrite resume_finished by done. intros [= <- <-]. by left.
Qed.

(** When [agent.run()] returns, the turn ends awaiting
    [browser.close()] with the record [completed]. *)
Lemma async_run_returns env task_id a b w r h :
  tasks (globals w) !! task_id = Some r ->
  answer env (AgentRun a) w = Returns h ->
  exists w',
    resume env (Await (AgentRun a) (after_run task_id b)) w
      = (Await (BrowserClose b) (after_close task_id), w')
    /\ tasks (globals w') !! task_id =
         Some {| status := completed; task_text := task_text r;
                 result := Some [("success", PBool true)];
                 error := error r |}.
Proof.
  intros Hr Ha. run_turn. eexists; split; [reflexivity|]. run_prog. done.
Qed.

(** When [browser.close()] raises after that, the handler of the same
    [try] marks the record [failed] and leaves its result in place. *)
Lemma after_close_raises env task_id b w r e :
  tasks (globals w) !! task_id = Some r ->
  answer env (BrowserClose b) w = Raises e ->
  exists w',
    resume env (Await (BrowserClose b) (after_close task_id)) w
      = (Ret tt, w')
    /\ tasks (globals w') !! task_id =
         Some {| status := failed; task_text := task_text r;
                 result := result r; error := Some (str e) |}.
Proof.
  intros Hr Ha. run_turn. eexists; split; [reflexivity|]. run_prog. done.
Qed.
End AppFacts.

(** ** The process: what every run keeps *)

Section ProcessFacts.
Context {G B : Type}.
Variable keys : G -> gset string.
Variable create : TaskRequest -> list B -> Prog G (TaskResponse * list B).
Variable launch : B -> Prog G (list (Prog G unit)).

(** [create] draws an identifier, adds it to the dictionary and
    answers with it; [launch] leaves the dictionary's keys alone and
    starts coroutines that do so too. *)
Hypothesis create_spec : forall env request w,
  match answer env Uuid4 w with
  | Returns id =>
      exists b g',
        exec env (create request []) w
        = (Ret ({| resp_task_id := id; resp_status := "started";
                   resp_message := "Task created successfully" |}, [b]),
           {| globals := g'; calls := logged Uuid4 (Returns id) :: calls w |})
        /\ keys g' = {[id]} ∪ keys (globals w)
  | Raises e =>
      exec env (create request []) w = (Throw e, record Uuid4 (Raises e) w)
  end.
Hypothesis launch_spec : forall env b w,
  keys (globals (exec env (launch b) w).2) = keys (globals w)
  /\ forall ps, (exec env (launch b) w).1 = Ret ps ->
       Forall (stable (fun g g' => keys g' = keys g)) ps.

Lemma process_inv_boot env g :
  keys g = ∅ -> process_inv keys env (boot (B:=B) g).
Proof.
  intros Hg. split_and!; cbn; [by rewrite Hg | constructor |].
  intros id. rewrite Hg. by intros ?%not_elem_of_empty.
Qed.

Lemma process_inv_step env (s : Process G B) ev :
  process_inv keys env s ->
  process_inv keys env (step create launch env s ev).
Proof.
  intros (Hkeys & Hloop & Hids). destruct ev as [request| |i]; cbn [step].
  - unfold submit. pose proof (create_spec env request (world s)) as Hc.
    destruct (answer env Uuid4 (world s)) as [id|e] eqn:Ha.
    + destruct Hc as (b & g' & -> & Hg'). cbn.
      split_and!; cbn; [|done|].
      * rewrite Hg', Hkeys, fmap_app, list_to_set_app_L. cbn.
        by rewrite (right_id_L ∅ (∪)), (comm_L (∪)).
      * intros id'. rewrite Hg'. intros [->%elem_of_singleton|Hin]%elem_of_union.
        -- exists (length (calls (world s))). split; [lia | exact Ha].
        -- destruct (Hids id' Hin) as (n & Hn & Hid). exists n.
           split; [lia | done].
    + rewrite Hc. cbn. split_and!; cbn; [done..|].
      intros id Hin. destruct (Hids id Hin) as (n & Hn & Hid).
      exists n. split; [lia | done].
  - unfold dispatch. destruct (background s) as [|b rest]; [done|].
    destruct (launch_spec env b (world s)) as [Hk Hps].
    pose proof (exec_calls_length env (launch b) (world s)) as Hlen.
    destruct (exec env (launch b) (world s)) as [p w] eqn:He.
    cbn [fst snd] in *.
    assert (forall id, id ∈ keys (globals w) ->
              exists n, n < length (calls w) /\ env n string Uuid4 = Returns id)
      as Hids'.
    { intros id Hin. rewrite Hk in Hin.
      destruct (Hids id Hin) as (n & Hn & Hid). exists n.
      split; [lia | done]. }
    destruct p as [ps|e|k|f k|R c k|R c k]; cbn;
      (split_and!; cbn; [by rewrite Hk | | done]); try done.
    apply Forall_app. split; [done | by apply Hps].
  - unfold turn. destruct (loop s !! i) as [p|] eqn:Hi; [|done].
    destruct (finished p); [done|].
    assert (stable (fun g g' => keys g' = keys g) p) as Hp.
    { eapply Forall_lookup_1; eauto. }
    destruct (resume_stable (fun g g' => keys g' = keys g)
                (fun g => eq_refl) (fun g1 g2 g3 H1 H2 => eq_trans H2 H1)
                env p (world s) Hp) as [Hp' Hk].
    pose proof (resume_calls_length env p (world s)) as Hlen.
    destruct (resume env p (world s)) as [p' w'] eqn:Hr.
    cbn [fst snd] in *. split_and!; cbn.
    + by rewrite Hk.
    + by apply Forall_insert.
    + intros id Hin. rewrite Hk in Hin.
      destruct (Hids id Hin) as (n & Hn & Hid). exists n.
      split; [lia | done].
Qed.

Lemma process_inv_steps env evs (s : Process G B) :
  process_inv keys env s ->
  process_inv keys env (steps create launch env evs s).
Proof.
  revert s. induction evs as [|ev evs IH]; intros s Hs; [done|].
  cbn. by apply IH, process_inv_step.
Qed.

(** An identifier drawn from a generator that never repeats is not a
    key of the dictionary yet. *)
Lemma process_inv_fresh env (s : Process G B) id :
  uuid4_fresh env ->
  process_inv keys env s ->
  answer env Uuid4 (world s) = Returns id ->
  id ∉ keys (globals (world s)).
Proof.
  intros Hfresh (_ & _ & Hids) Ha Hin.
  destruct (Hids id Hin) as (n & Hn & Hid).
  specialize (Hfresh _ _ _ Hid Ha). lia.
Qed.
End ProcessFacts.

(** Programs of both servers only update records in place. *)
Ltac prove_stable :=
  repeat first
    [ progress unfold_turn
    | progress cbn [Server.tasks Server.set_tasks Server.set_browser_session
                    Server.set_llm_model App.tasks App.set_tasks]
    | apply dom_alter_L
    | reflexivity
    | constructor
    | intro
    | match goal with
      | |- context [outcome ?o _] => destruct o
      end
    | match goal with
      | |- context [Server.startup_failed ?e] => is_var e; destruct e
      end
    | match goal with
      | |- context [match ?x with _ => _ end] => destruct x
      end ].

Lemma server_run_task_stable task_id task_text :
  stable (fun g g' => dom (Server.tasks g') = dom (Server.tasks g))
    (Server.run_task task_id task_text).
Proof. prove_stable. Qed.

Lemma app_async_run_task_stable task_id :
  stable (fun g g' => dom (App.tasks g') = dom (App.tasks g))
    (App._async_run_task task_id).
Proof. prove_stable. Qed.

Lemma server_create_spec env request w :
  match answer env Uuid4 w with
  | Returns id =>
      exists b g',
        exec env (Server.create_task request []) w
        = (Ret ({| resp_task_id := id; resp_status := "started";
                   resp_message := "Task created successfully" |}, [b]),
           {| globals := g'; calls := logged Uuid4 (Returns id) :: calls w |})
        /\ dom (Server.tasks g') = {[id]} ∪ dom (Server.tasks (globals w))
  | Raises e =>
      exec env (Server.create_task request []) w
      = (Throw e, record Uuid4 (Raises e) w)
  end.
Proof.
  unfold_turn. destruct (answer env Uuid4 w) as [id|e]; unfold_turn; [|done].
  eexists _, _. split; [reflexivity|]. cbn. apply dom_insert_L.
Qed.

Lemma app_create_spec env request w :
  match answer env Uuid4 w with
  | Returns id =>
      exists b g',
        exec env (App.create_task request []) w
        = (Ret ({| resp_task_id := id; resp_status := "started";
                   resp_message := "Task created successfully" |}, [b]),
           {| globals := g'; calls := logged Uuid4 (Returns id) :: calls w |})
        /\ dom (App.tasks g') = {[id]} ∪ dom (App.tasks (globals w))
  | Raises e =>
      exec env (App.create_task request []) w
      = (Throw e, record Uuid4 (Raises e) w)
  end.
Proof.
  unfold_turn. destruct (answer env Uuid4 w) as [id|e]; unfold_turn; [|done].
  eexists _, _. split; [reflexivity|]. cbn. apply dom_insert_L.
Qed.

Lemma server_launch_spec env b w :
  dom (Server.tasks (globals (exec env (server_launch b) w).2))
  = dom (Server.tasks (globals w))
  /\ forall ps, (exec env (server_launch b) w).1 = Ret ps ->
       Forall (stable (fun g g' =>
                 dom (Server.tasks g') = dom (Server.tasks g))) ps.
Proof.
  split; [done|]. intros ps [= <-]. constructor; [|constructor].
  apply server_run_task_stable.
Qed.

Lemma app_launch_spec env b w :
  dom (App.tasks (globals (exec env (App.run_agent_task b) w).2))
  = dom (App.tasks (globals w))
  /\ forall ps, (exec env (App.run_agent_task b) w).1 = Ret ps ->
       Forall (stable (fun g g' =>
                 dom (App.tasks g') = dom (App.tasks g))) ps.
Proof.
  unfold_turn. destruct (answer env AsyncioCreateTask w); unfold_turn.
  - split; [done|]. intros ps [= <-]. constructor; [|constructor].
    apply app_async_run_task_stable.
  - split; [done|]. intros ps [=].
Qed.

Lemma server_process_inv env evs :
  process_inv (fun g => dom (Server.tasks g)) env (server_steps env evs).
Proof.
  apply (process_inv_steps _ _ _ server_create_spec server_launch_spec).
  by apply process_inv_boot.
Qed.

Lemma app_process_inv env evs :
  process_inv (fun g => dom (App.tasks g)) env (app_steps env evs).
Proof.
  apply (process_inv_steps _ _ _ app_create_spec app_launch_spec).
  by apply process_inv_boot.
Qed.

(** * The claims *)

(** ** Instruction resolution *)

Lemma default_task_nonempty : default_task <> "".
Proof. done. Qed.

Lemma final_task_custom request s :
  custom_task request = Some s -> s <> "" -> final_task request = s.
Proof.
  intros Hc Hs. unfold final_task. rewrite Hc. cbn.
  destruct (String.eqb_spec s ""); [done|done].
Qed.

Lemma final_task_default request :
  truthy (custom_task request) = false -> final_task request = default_task.
Proof.
  unfold final_task. destruct (custom_task request) as [s|]; [|done].
  by intros ->.
Qed.

Lemma server_handed_over env request w task_id :
  answer env Uuid4 w = Returns task_id ->
  Server.handed_over env request w = Some (final_task request).
Proof. intros Ha. unfold Server.handed_over. by run_prog. Qed.

Lemma app_handed_over env request w task_id :
  answer env Uuid4 w = Returns task_id ->
  App.handed_over env request w = Some (final_task request).
Proof.
  intros Ha. unfold App.handed_over. run_prog.
  cbn [resp_task_id App.task_text]. by run_prog.
Qed.

(** C9, as stated, fails: a [custom_task] that is present but empty is
    not handed to the executor; the built-in text is. *)
Lemma empty_custom_task_not_verbatim :
  let request := {| task := "default"; custom_task := Some "" |} in
  custom_task request = Some ""
  /\ Server.handed_over all_fine request Server.cold = Some default_task
  /\ Server.handed_over all_fine request Server.cold <> Some ""
  /\ App.handed_over all_fine request
       {| globals := App.init; calls := [] |} = Some default_task
  /\ App.handed_over all_fine request
       {| globals := App.init; calls := [] |} <> Some "".
Proof. by split_and!. Qed.

(** C9 (amended): the instruction handed to the executor is the
    [custom_task] string verbatim when it is present and not empty, and
    the built-in default text verbatim when no [custom_task] is
    supplied; so in [server.py] as in [app.py]. *)
Theorem effective_instruction env request ws wa id_s id_a :
  answer env Uuid4 ws = Returns id_s ->
  answer env Uuid4 wa = Returns id_a ->
  (forall s, custom_task request = Some s -> s <> "" ->
     Server.handed_over env request ws = Some s
     /\ App.handed_over env request wa = Some s)
  /\ (custom_task request = None ->
      Server.handed_over env request ws = Some default_task
      /\ App.handed_over env request wa = Some default_task).
Proof.
  intros Hs Ha.
  rewrite (server_handed_over _ _ _ _ Hs), (app_handed_over _ _ _ _ Ha).
  split.
  - intros s Hc Hne. by rewrite (final_task_custom _ _ Hc Hne).
  - intros Hc. rewrite final_task_default; [done|]. by rewrite Hc.
Qed.

Lemma effective_instruction_witness :
  Server.handed_over all_fine
    {| task := "default"; custom_task := Some "go to example.com" |}
    Server.cold = Some "go to example.com"
  /\ App.handed_over all_fine {| task := "default"; custom_task := None |}
       {| globals := App.init; calls := [] |} = Some default_task.
Proof.
  split.
  - apply (effective_instruction all_fine
             {| task := "default"; custom_task := Some "go to example.com" |}
             Server.cold {| globals := App.init; calls := [] |} "0" "0");
      [reflexivity | reflexivity | reflexivity | discriminate].
  - apply (effective_instruction all_fine
             {| task := "default"; custom_task := None |}
             Server.cold {| globals := App.init; calls := [] |} "0" "0");
      reflexivity.
Defined.

(** C10: an empty [custom_task] gives the executor the built-in default
    text, not the empty string; a present [custom_task] overrides the
    default exactly when it is not empty. *)
Theorem empty_custom_task_gives_default env request ws wa id_s id_a s :
  custom_task request = Some s ->
  answer env Uuid4 ws = Returns id_s ->
  answer env Uuid4 wa = Returns id_a ->
  (s = "" ->
     Server.handed_over env request ws = Some default_task
     /\ App.handed_over env request wa = Some default_task
     /\ default_task <> "")
  /\ (Server.handed_over env request ws = Some s <-> s <> "")
  /\ (App.handed_over env request wa = Some s <-> s <> "").
Proof.
  intros Hc Hs Ha.
  rewrite (server_handed_over _ _ _ _ Hs), (app_handed_over _ _ _ _ Ha).
  destruct (decide (s = "")) as [->|Hne].
  - rewrite final_task_default by (by rewrite Hc).
    split_and!; [done | split; [by intros [= ?]|done]
                      | split; [by intros [= ?]|done]].
  - rewrite (final_task_custom _ _ Hc Hne). by split_and!.
Qed.

Lemma empty_custom_task_gives_default_witness :
  Server.handed_over all_fine {| task := "default"; custom_task := Some "" |}
    Server.cold = Some default_task
  /\ App.handed_over all_fine {| task := "default"; custom_task := Some "" |}
       {| globals := App.init; calls := [] |} = Some default_task
  /\ default_task <> "".
Proof.
  apply (empty_custom_task_gives_default all_fine
           {| task := "default"; custom_task := Some "" |}
           Server.cold {| globals := App.init; calls := [] |} "0" "0" "");
    reflexivity.
Defined.

(** ** Submission and lookup *)

Lemma server_get_task_spec env w task_id :
  exec env (Server.get_task task_id) w
  = (match Server.tasks (globals w) !! task_id with
     | None => Throw (HTTPException 404 "Task not found")
     | Some r =>
         Ret {| ts_task_id := task_id;
                ts_status := Server.status_str (Server.status r);
                ts_result := Server.result r;
                ts_error := Server.error r |}
     end, w).
Proof. unfold_turn. by destruct (Server.tasks (globals w) !! task_id). Qed.

Lemma app_get_task_spec env w task_id :
  exec env (App.get_task task_id) w
  = (match App.tasks (globals w) !! task_id with
     | None => Throw (HTTPException 404 "Task not found")
     | Some r =>
         Ret {| ts_task_id := task_id;
                ts_status := App.status_str (App.status r);
                ts_result := App.result r;
                ts_error := App.error r |}
     end, w).
Proof. unfold_turn. by destruct (App.tasks (globals w) !! task_id). Qed.

Lemma server_known_ids env evs task_id :
  task_id ∈ resp_task_id <$> responses (server_steps env evs)
  <-> is_Some (Server.tasks (globals (world (server_steps env evs))) !! task_id).
Proof.
  destruct (server_process_inv env evs) as (Hkeys & _ & _).
  rewrite <- elem_of_dom, Hkeys. by rewrite elem_of_list_to_set.
Qed.

Lemma app_known_ids env evs task_id :
  task_id ∈ resp_task_id <$> responses (app_steps env evs)
  <-> is_Some (App.tasks (globals (world (app_steps env evs))) !! task_id).
Proof.
  destruct (app_process_inv env evs) as (Hkeys & _ & _).
  rewrite <- elem_of_dom, Hkeys. by rewrite elem_of_list_to_set.
Qed.

(** C8: after any requests and any schedule, a lookup of an identifier
    that no [create_task] call returned raises the 404 "Task not found"
    error, and a lookup of an identifier that one returned gives the
    fields of its record; so in [server.py] as in [app.py]. *)
Theorem lookup_not_found_iff_never_returned env evs task_id :
  let s := server_steps env evs in
  let a := app_steps env evs in
  (task_id ∉ resp_task_id <$> responses s ->
   exec env (Server.get_task task_id) (world s)
   = (Throw (HTTPException 404 "Task not found"), world s))
  /\ (task_id ∈ resp_task_id <$> responses s ->
      exists r,
        Server.tasks (globals (world s)) !! task_id = Some r
        /\ exec env (Server.get_task task_id) (world s)
           = (Ret {| ts_task_id := task_id;
                     ts_status := Server.status_str (Server.status r);
                     ts_result := Server.result r;
                     ts_error := Server.error r |}, world s))
  /\ (task_id ∉ resp_task_id <$> responses a ->
      exec env (App.get_task task_id) (world a)
      = (Throw (HTTPException 404 "Task not found"), world a))
  /\ (task_id ∈ resp_task_id <$> responses a ->
      exists r,
        App.tasks (globals (world a)) !! task_id = Some r
        /\ exec env (App.get_task task_id) (world a)
           = (Ret {| ts_task_id := task_id;
                     ts_status := App.status_str (App.status r);
                     ts_result := App.result r;
                     ts_error := App.error r |}, world a)).
Proof.
  cbn zeta. rewrite server_get_task_spec, app_get_task_spec.
  rewrite server_known_ids, app_known_ids.
  destruct (Server.tasks _ !! task_id) as [r|];
    destruct (App.tasks _ !! task_id) as [r'|];
    split_and!; intros H; try done; try (by destruct H); eauto;
    by (exfalso; apply H).
Qed.

Lemma lookup_not_found_iff_never_returned_witness :
  let evs := [Submit {| task := "default"; custom_task := None |};
              Dispatch; Resume 0] in
  exec all_fine (Server.get_task "7") (world (server_steps all_fine evs))
  = (Throw (HTTPException 404 "Task not found"),
     world (server_steps all_fine evs))
  /\ (exists r,
        Server.tasks (globals (world (server_steps all_fine evs))) !! "0"
        = Some r
        /\ exec all_fine (Server.get_task "0")
             (world (server_steps all_fine evs))
           = (Ret {| ts_task_id := "0";
                     ts_status := Server.status_str (Server.status r);
                     ts_result := Server.result r;
                     ts_error := Server.error r |},
              world (server_steps all_fine evs)))
  /\ exec all_fine (App.get_task "7") (world (app_steps all_fine evs))
     = (Throw (HTTPException 404 "Task not found"),
        world (app_steps all_fine evs))
  /\ (exists r,
        App.tasks (globals (world (app_steps all_fine evs))) !! "0" = Some r
        /\ exec all_fine (App.get_task "0") (world (app_steps all_fine evs))
           = (Ret {| ts_task_id := "0";
                     ts_status := App.status_str (App.status r);
                     ts_result := App.result r;
                     ts_error := App.error r |},
              world (app_steps all_fine evs))).
Proof.
  intros evs. split_and!.
  - apply (lookup_not_found_iff_never_returned all_fine evs "7").
    apply (bool_decide_unpack _). vm_compute. exact I.
  - apply (lookup_not_found_iff_never_returned all_fine evs "0").
    apply (bool_decide_unpack _). vm_compute. exact I.
  - apply (lookup_not_found_iff_never_returned all_fine evs "7").
    apply (bool_decide_unpack _). vm_compute. exact I.
  - apply (lookup_not_found_iff_never_returned all_fine evs "0").
    apply (bool_decide_unpack _). vm_compute. exact I.
Defined.

Lemma all_fine_fresh : uuid4_fresh all_fine.
Proof. intros i j id [= <-] [= Hj]. by apply (inj pretty) in Hj. Qed.

(** C7: with an identifier generator that never repeats, after any
    requests and any schedule, [create_task] returns an identifier that
    is not yet a key of [tasks], and returns without running anything:
    the record is inserted as [pending] with no result and no error, the
    executor is only added to the background tasks, the acknowledgment
    says "started", and a lookup right then answers "pending"; so in
    [server.py] as in [app.py]. *)
Theorem submit_fresh_pending env evs request id_s id_a :
  uuid4_fresh env ->
  let s := server_steps env evs in
  let a := app_steps env evs in
  let s' := submit Server.create_task env request s in
  let a' := submit App.create_task env request a in
  (answer env Uuid4 (world s) = Returns id_s ->
   Server.tasks (globals (world s)) !! id_s = None
   /\ responses s'
      = (responses s ++ [{| resp_task_id := id_s; resp_status := "started";
                            resp_message := "Task created successfully" |}])%list
   /\ Server.tasks (globals (world s')) !! id_s
      = Some {| Server.status := Server.pending; Server.result := None;
                Server.error := None |}
   /\ loop s' = loop s
   /\ background s' = (background s ++ [(id_s, final_task request)])%list
   /\ exec env (Server.get_task id_s) (world s')
      = (Ret {| ts_task_id := id_s; ts_status := "pending";
                ts_result := None; ts_error := None |}, world s'))
  /\ (answer env Uuid4 (world a) = Returns id_a ->
      App.tasks (globals (world a)) !! id_a = None
      /\ responses a'
         = (responses a ++ [{| resp_task_id := id_a; resp_status := "started";
                               resp_message := "Task created successfully" |}])%list
      /\ App.tasks (globals (world a')) !! id_a
         = Some {| App.status := App.pending;
                   App.task_text := final_task request;
                   App.result := None; App.error := None |}
      /\ loop a' = loop a
      /\ background a' = (background a ++ [id_a])%list
      /\ exec env (App.get_task id_a) (world a')
         = (Ret {| ts_task_id := id_a; ts_status := "pending";
                   ts_result := None; ts_error := None |}, world a')).
Proof.
  intros Hfresh s a s' a'. split; intros Ha.
  - pose proof (process_inv_fresh _ env s id_s Hfresh
                  (server_process_inv env evs) Ha) as Hnew.
    apply not_elem_of_dom in Hnew. split; [done|].
    subst s'. unfold submit. rewrite server_get_task_spec.
    run_prog. cbn [result_of world responses loop background].
    run_prog. by split_and!.
  - pose proof (process_inv_fresh _ env a id_a Hfresh
                  (app_process_inv env evs) Ha) as Hnew.
    apply not_elem_of_dom in Hnew. split; [done|].
    subst a'. unfold submit. rewrite app_get_task_spec.
    run_prog. cbn [result_of world responses loop background].
    run_prog. by split_and!.
Qed.

Lemma submit_fresh_pending_witness :
  let evs := [Submit {| task := "default"; custom_task := None |};
              Dispatch; Resume 0] in
  let request := {| task := "default"; custom_task := Some "go" |} in
  Server.tasks (globals (world (server_steps all_fine evs))) !! "4" = None
  /\ Server.tasks
       (globals (world (submit Server.create_task all_fine request
                          (server_steps all_fine evs)))) !! "4"
     = Some {| Server.status := Server.pending; Server.result := None;
               Server.error := None |}
  /\ App.tasks (globals (world (app_steps all_fine evs))) !! "7" = None
  /\ exec all_fine (App.get_task "7")
       (world (submit App.create_task all_fine request
                 (app_steps all_fine evs)))
     = (Ret {| ts_task_id := "7"; ts_status := "pending";
               ts_result := None; ts_error := None |},
        world (submit App.create_task all_fine request
                 (app_steps all_fine evs))).
Proof.
  intros evs request.
  destruct (submit_fresh_pending all_fine evs request "4" "7" all_fine_fresh)
    as [Hs Ha].
  destruct (Hs eq_refl) as (H1 & _ & H2 & _).
  destruct (Ha eq_refl) as (H3 & _ & _ & _ & _ & H4).
  by split_and!.
Defined.

(** ** Lazy singletons under concurrent first callers *)

(** C4: [n] callers of [get_browser] (respectively [get_llm]) started
    while nothing is cached, run on the event loop under any schedule
    and any environment: at most one session (client) is ever
    constructed; whoever has returned holds the one cached object, and
    exactly one was constructed; and when no library call raises, every
    caller that was given two turns (one turn for [get_llm]) has
    returned it. *)
Theorem lazy_singletons_single_flight env n sched :
  let browser := interleave env sched (replicate n Server.get_browser,
                                       Server.cold) in
  let llm := interleave env sched (replicate n Server.get_llm, Server.cold) in
  (constructed is_session (calls browser.2) <= 1
   /\ (forall i r, browser.1 !! i = Some (Ret r) ->
         constructed is_session (calls browser.2) = 1
         /\ is_Some r /\ r = Server.browser_session (globals browser.2))
   /\ (all_return env -> forall i, i < n ->
         2 <= count_occ Nat.eq_dec sched i ->
         exists b, browser.1 !! i = Some (Ret (Some b))))
  /\ (constructed is_llm (calls llm.2) <= 1
      /\ (forall i r, llm.1 !! i = Some (Ret r) ->
            constructed is_llm (calls llm.2) = 1
            /\ is_Some r /\ r = Server.llm_model (globals llm.2))
      /\ (all_return env -> forall i, i < n ->
            1 <= count_occ Nat.eq_dec sched i ->
            exists l, llm.1 !! i = Some (Ret (Some l)))).
Proof.
  intros browser llm. split.
  - pose proof (ServerFacts.browser_race env n sched) as Hinv.
    fold browser in Hinv. destruct Hinv as (Hw & Hlen & Hall).
    unfold Server.browser_world in Hw. split_and!.
    + rewrite Hw. destruct (Server.browser_session _); lia.
    + intros i r Hi. destruct (Hall i _ Hi) as [Hc _].
      destruct Hc as [Hc|[(b & Hc & _)|[(b & [= ->] & Hb)|(e & Hc & _)]]];
        try discriminate Hc.
      rewrite Hw, Hb. by eauto.
    + intros Hret i Hi Hturns.
      destruct (lookup_lt_is_Some_2 browser.1 i) as [p Hp]; [lia|].
      destruct (Hall i p Hp) as [Hc Hs].
      destruct Hc as [->|[(b & -> & _)|[(b & -> & Hb)|(e & -> & He)]]];
        cbn in Hs; try lia; [by eauto | done].
  - pose proof (ServerFacts.llm_race env n sched) as Hinv.
    fold llm in Hinv. destruct Hinv as (Hw & Hlen & Hall).
    unfold Server.llm_world in Hw. split_and!.
    + rewrite Hw. destruct (Server.llm_model _); lia.
    + intros i r Hi. destruct (Hall i _ Hi) as [Hc _].
      destruct Hc as [Hc|[(b & [= ->] & Hb)|(e & Hc & _)]];
        try discriminate Hc.
      rewrite Hw, Hb. by eauto.
    + intros Hret i Hi Hturns.
      destruct (lookup_lt_is_Some_2 llm.1 i) as [p Hp]; [lia|].
      destruct (Hall i p Hp) as [Hc Hs].
      destruct Hc as [->|[(b & -> & Hb)|(e & -> & He)]];
        cbn in Hs; try lia; [by eauto | done].
Qed.

Lemma all_fine_returns : all_return all_fine.
Proof. intros n R c. by destruct c. Qed.

Lemma lazy_singletons_single_flight_witness :
  (exists b,
     (interleave all_fine [0; 1; 2; 1; 0; 2]
        (replicate 3 Server.get_browser, Server.cold)).1 !! 2
     = Some (Ret (Some b)))
  /\ constructed is_session
       (calls (interleave all_fine [0; 1; 2; 1; 0; 2]
                 (replicate 3 Server.get_browser, Server.cold)).2) = 1
  /\ (exists l,
        (interleave all_fine [0; 1; 2; 1; 0; 2]
           (replicate 3 Server.get_llm, Server.cold)).1 !! 1
        = Some (Ret (Some l))).
Proof.
  destruct (lazy_singletons_single_flight all_fine 3 [0; 1; 2; 1; 0; 2])
    as [(_ & Hb1 & Hb2) (_ & _ & Hl2)].
  split_and!.
  - apply (Hb2 all_fine_returns 2); [lia | cbn; lia].
  - apply (Hb1 1 (Some 2)). reflexivity.
  - apply (Hl2 all_fine_returns 1); [lia | cbn; lia].
Defined.

(** ** The result of a successful run *)

(** C6, as stated, fails in [app.py]: after a run in which every call
    returns, the record is [completed] and its result holds the single
    key ["success"]; there is no ["usage"] field. *)
Lemma app_result_has_no_usage :
  let s := app_steps all_fine
             [Submit {| task := "default"; custom_task := Some "go" |};
              Dispatch; Resume 0; Resume 0; Resume 0; Resume 0] in
  result_of <$> loop s = [Some (Returns tt)]
  /\ exists d,
       App.tasks (globals (world s)) !! "0"
       = Some {| App.status := App.completed; App.task_text := "go";
                 App.result := Some d; App.error := None |}
       /\ d = [("success", PBool true)]
       /\ "usage" ∉ d.*1.
Proof.
  split; [reflexivity|]. eexists. split_and!; [reflexivity..|].
  apply (bool_decide_unpack _). vm_compute. exact I.
Qed.

(** C6 (amended): whenever the executor is suspended at [agent.run()]
    and the call returns, the turn marks the record [completed]; in
    [server.py], provided the usage read does not raise, with result
    [{"success": True, "usage": u}] where [u] is the dumped usage or
    [None], and the coroutine is done; in [app.py] with result
    [{"success": True}], the coroutine going on to [browser.close()]. *)
Theorem success_sets_completed_result env task_id :
  (forall task_text p a w r h u,
     residual env (Server.run_task task_id task_text) p ->
     awaits_run p = Some a ->
     Server.tasks (globals w) !! task_id = Some r ->
     answer env (AgentRun a) w = Returns h ->
     usage_of h = Returns u ->
     exists w',
       resume env p w = (Ret tt, w')
       /\ Server.tasks (globals w') !! task_id
          = Some {| Server.status := Server.completed;
                    Server.result :=
                      Some [("success", PBool true); ("usage", u)];
                    Server.error := Server.error r |})
  /\ (forall p a w r h,
        residual env (App._async_run_task task_id) p ->
        awaits_run p = Some a ->
        App.tasks (globals w) !! task_id = Some r ->
        answer env (AgentRun a) w = Returns h ->
        exists w' b,
          resume env p w
          = (Await (BrowserClose b) (App.after_close task_id), w')
          /\ App.tasks (globals w') !! task_id
             = Some {| App.status := App.completed;
                       App.task_text := App.task_text r;
                       App.result := Some [("success", PBool true)];
                       App.error := App.error r |}).
Proof.
  split.
  - intros task_text p a w r h u Hres Hp Hr Ha Hu.
    apply ServerFacts.run_task_residual in Hres.
    destruct Hres as [->|[[b ->]|[[a' ->]|Hfin]]]; try discriminate Hp.
    + injection Hp as ->. by apply ServerFacts.run_task_run_returns with h.
    + by destruct p.
  - intros p a w r h Hres Hp Hr Ha.
    apply AppFacts.async_run_task_residual in Hres.
    destruct Hres as [->|[[b ->]|[(a' & b & ->)|[[b ->]|Hfin]]]];
      try discriminate Hp.
    + injection Hp as ->.
      destruct (AppFacts.async_run_returns env task_id a b w r h Hr Ha)
        as (w' & ? & ?).
      by exists w', b.
    + by destruct p.
Qed.

Lemma success_sets_completed_result_witness :
  let request := {| task := "default"; custom_task := Some "go" |} in
  let w0 := world (server_steps all_fine [Submit request; Dispatch]) in
  let p1 := (resume all_fine (Server.run_task "0" "go") w0).1 in
  let w1 := (resume all_fine (Server.run_task "0" "go") w0).2 in
  let p2 := (resume all_fine p1 w1).1 in
  let w2 := (resume all_fine p1 w1).2 in
  let v0 := world (app_steps all_fine [Submit request; Dispatch]) in
  let q1 := (resume all_fine (App._async_run_task "0") v0).1 in
  let v1 := (resume all_fine (App._async_run_task "0") v0).2 in
  let q2 := (resume all_fine q1 v1).1 in
  let v2 := (resume all_fine q1 v1).2 in
  (exists w',
     resume all_fine p2 w2 = (Ret tt, w')
     /\ Server.tasks (globals w') !! "0"
        = Some {| Server.status := Server.completed;
                  Server.result :=
                    Some [("success", PBool true); ("usage", PNone)];
                  Server.error := None |})
  /\ (exists v' b,
        resume all_fine q2 v2
        = (Await (BrowserClose b) (App.after_close "0"), v')
        /\ App.tasks (globals v') !! "0"
           = Some {| App.status := App.completed; App.task_text := "go";
                     App.result := Some [("success", PBool true)];
                     App.error := None |}).
Proof.
  intros request w0 p1 w1 p2 w2 v0 q1 v1 q2 v2.
  destruct (success_sets_completed_result all_fine "0") as [Hs Ha].
  split.
  - apply (Hs "go" p2 8 w2
             {| Server.status := Server.running; Server.result := None;
                Server.error := None |} None PNone).
    + apply residual_resume, residual_resume, residual_entry.
    + reflexivity.
    + reflexivity.
    + reflexivity.
    + reflexivity.
  - apply (Ha q2 9 v2
             {| App.status := App.running; App.task_text := "go";
                App.result := None; App.error := None |} None).
    + apply residual_resume, residual_resume, residual_entry.
    + reflexivity.
    + reflexivity.
    + reflexivity.
Defined.

(** ** Where the code leaves the specified life cycle *)

(** C1 (code defect): a record that is [completed] becomes [failed].
    In [app.py] [browser.close()] is awaited inside the [try] after the
    record is marked [completed]: while it is awaited a lookup answers
    "completed", and when it raises the handler marks the record
    [failed].  In [server.py] the status is set to [completed] before
    the usage is read; when that read raises, the same turn sets it to
    [failed]. *)
Theorem completed_record_becomes_failed :
  let request := {| task := "default"; custom_task := Some "go" |} in
  let env := raising is_close (PyException "Error" "boom") all_fine in
  let before := app_steps env [Submit request; Dispatch;
                               Resume 0; Resume 0; Resume 0] in
  let after := turn env 0 before in
  exec env (App.get_task "0") (world before)
  = (Ret {| ts_task_id := "0"; ts_status := "completed";
            ts_result := Some [("success", PBool true)];
            ts_error := None |}, world before)
  /\ exec env (App.get_task "0") (world after)
     = (Ret {| ts_task_id := "0"; ts_status := "failed";
               ts_result := Some [("success", PBool true)];
               ts_error := Some "boom" |}, world after)
  /\ (let s := server_steps broken_usage [Submit request; Dispatch;
                                          Resume 0; Resume 0] in
      exists p,
        loop s = [p]
        /\ (fun g => Server.status <$> Server.tasks g !! "0")
           <$> resume_snapshots broken_usage p (world s)
           = [Some Server.completed; Some Server.failed; Some Server.failed]
        /\ Server.tasks (globals (resume broken_usage p (world s)).2) !! "0"
           = Some {| Server.status := Server.failed; Server.result := None;
                     Server.error :=
                       Some "'AgentHistoryList' object has no attribute 'usage'"
                  |}).
Proof.
  split_and!; [reflexivity..|]. eexists. split_and!; reflexivity.
Qed.

(** C5 (code defect): in [app.py] a record ends [failed] with both its
    result and its error set, when [browser.close()] raises after a
    successful run. *)
Theorem failed_record_keeps_result :
  let request := {| task := "default"; custom_task := Some "go" |} in
  let env := raising is_close (PyException "Error" "boom") all_fine in
  let s := app_steps env [Submit request; Dispatch;
                          Resume 0; Resume 0; Resume 0; Resume 0] in
  result_of <$> loop s = [Some (Returns tt)]
  /\ App.tasks (globals (world s)) !! "0"
     = Some {| App.status := App.failed; App.task_text := "go";
               App.result := Some [("success", PBool true)];
               App.error := Some "boom" |}.
Proof. split; reflexivity. Qed.

(** In [app.py], a [browser.close()] that raises after the agent has
    run always ends so: the handler sets status and error and leaves
    the result. *)
Lemma close_failure_keeps_result env task_id p b w r e :
  residual env (App._async_run_task task_id) p ->
  p = Await (BrowserClose b) (App.after_close task_id) ->
  App.tasks (globals w) !! task_id = Some r ->
  answer env (BrowserClose b) w = Raises e ->
  exists w',
    resume env p w = (Ret tt, w')
    /\ App.tasks (globals w') !! task_id
       = Some {| App.status := App.failed; App.task_text := App.task_text r;
                 App.result := App.result r; App.error := Some (str e) |}.
Proof. intros _ -> Hr Ha. by apply AppFacts.after_close_raises. Qed.

Lemma steps_resume_idle {G B} create launch env (s : Process G B) turns :
  loop s = [] ->
  steps create launch env (Resume <$> turns) s = s.
Proof.
  intros Hl. induction turns as [|i turns IH]; [done|].
  cbn. unfold turn. by rewrite Hl, lookup_nil.
Qed.

(** C2 (code defect): in [app.py] the background task is
    [run_agent_task], a plain function without a handler.  Run by the
    framework outside the event loop's thread, [asyncio.create_task]
    raises; the exception leaves the background task, no coroutine is
    scheduled, and whatever turns the loop gives, the record stays
    [pending] with no error. *)
Theorem run_agent_task_lets_exception_out :
  let request := {| task := "default"; custom_task := None |} in
  let env := raising is_create_task (RuntimeError "no running event loop")
               all_fine in
  let s := app_steps env [Submit request; Dispatch] in
  escaped s = [RuntimeError "no running event loop"]
  /\ loop s = [] /\ background s = []
  /\ forall turns,
       App.tasks (globals (world
         (steps App.create_task App.run_agent_task env (Resume <$> turns) s)))
       !! "0"
       = Some {| App.status := App.pending; App.task_text := default_task;
                 App.result := None; App.error := None |}.
Proof.
  split_and!; [reflexivity..|]. intros turns.
  by rewrite steps_resume_idle.
Qed.

(** In [app.py], when the coroutine does get to run, a start-up
    failure that carries no message is recorded as an empty error. *)
Lemma empty_message_gives_empty_error :
  let request := {| task := "default"; custom_task := Some "go" |} in
  let env := raising is_start TimeoutError all_fine in
  let s := app_steps env [Submit request; Dispatch; Resume 0; Resume 0] in
  result_of <$> loop s = [Some (Returns tt)]
  /\ App.tasks (globals (world s)) !! "0"
     = Some {| App.status := App.failed; App.task_text := "go";
               App.result := None; App.error := Some "" |}.
Proof. split; reflexivity. Qed.

(** In [server.py] the background task is [run_task] itself: no turn of
    it lets an exception out while its record exists, and its last turn
    leaves the record [completed] or [failed] with the exception's
    text. *)
Lemma run_task_contains_exceptions env task_id task_text p w r :
  residual env (Server.run_task task_id task_text) p ->
  finished p = false ->
  Server.tasks (globals w) !! task_id = Some r ->
  exists r',
    Server.tasks (globals (resume env p w).2) !! task_id = Some r'
    /\ match (resume env p w).1 with
       | Ret _ => Server.settled r r'
       | Throw _ => False
       | _ => Server.in_flight r r'
       end.
Proof.
  intros Hres Hp Hr. apply ServerFacts.run_task_residual in Hres.
  destruct (resume env p w) as [p' w'] eqn:Hrun.
  by eapply ServerFacts.run_task_turn.
Qed.

(** C3 (code defect): [get_browser] assigns the session to the global
    before it awaits [start()].  When [start()] times out the call
    raises the 503 error and the session stays cached: the next call,
    whatever the environment, returns it without constructing or
    starting anything. *)
Theorem failed_start_stays_cached :
  let env := raising is_start TimeoutError all_fine in
  let first := run env 2 Server.get_browser Server.cold in
  first.1 = Throw (HTTPException 503 "Browser startup timeout")
  /\ Server.browser_session (globals first.2) = Some 2
  /\ forall env',
       exec env' Server.get_browser first.2 = (Ret (Some 2), first.2).
Proof.
  split_and!; [reflexivity..|]. intros env'.
  by apply ServerFacts.get_browser_cached.
Qed.


(** * Further properties *)

(** ** server.py: the life cycle between turns *)

Ltac close_executor :=
  intros [= <- <-]; run_prog;
  eexists; split_and!;
  [ reflexivity
  | unfold Server.executor_ok, Server.with_status, Server.with_result,
      Server.with_error, Server.consistent;
    cbn [Server.status Server.result Server.error Server.rank];
    first [ by (right; left; split; [left; eexists|])
          | by (right; left; split; [right; eexists|])
          | by (right; right; split_and!; eauto) ]
  | cbn [Server.status Server.rank Server.new_record Server.with_status
         Server.with_result Server.with_error]; lia
  | intros id' Hne; cbn [Server.tasks Server.set_tasks globals];
    by rewrite ?lookup_alter_ne ].

(** A turn of [run_task] keeps its record in step with its state and
    changes no other record. *)
Lemma run_task_step env task_id task_text p w r p' w' :
  Server.executor_ok task_id task_text p r ->
  Server.tasks (globals w) !! task_id = Some r ->
  resume env p w = (p', w') ->
  exists r',
    Server.tasks (globals w') !! task_id = Some r'
    /\ Server.executor_ok task_id task_text p' r'
    /\ Server.rank (Server.status r) <= Server.rank (Server.status r')
    /\ forall id', id' <> task_id ->
         Server.tasks (globals w') !! id' = Server.tasks (globals w) !! id'.
Proof.
  intros [[-> ->]|[[[[b ->]|[a ->]] ->]|(-> & Hrank & Hcons)]] Hr.
  - run_turn; close_executor.
  - run_turn; close_executor.
  - run_turn; close_executor.
  - intros [= <- <-]. exists r. split_and!; [done| |done|done].
    by right; right.
Qed.

Lemma lifecycle_boot : lifecycle_inv (boot Server.init).
Proof.
  exists []. split_and!; cbn; try done.
  - constructor.
  - intros id. rewrite lookup_empty. split; [by intros [? ?]|].
    by intros ?%elem_of_nil.
  - intros b ?%elem_of_nil. done.
Qed.

Lemma lifecycle_step env s ev :
  uuid4_fresh env ->
  process_inv (fun g => dom (Server.tasks g)) env s ->
  lifecycle_inv s ->
  lifecycle_inv (step Server.create_task server_launch env s ev).
Proof.
  intros Hfresh Hproc (owners & Hlen & Hnodup & Hdom & Hbg & Hloop).
  destruct ev as [request| |i]; cbn [step].
  - (* a request *)
    unfold submit. unfold_turn.
    destruct (answer env Uuid4 (world s)) as [id|e] eqn:Ha; unfold_turn;
      cbn [result_of].
    + pose proof (process_inv_fresh _ env s id Hfresh Hproc Ha) as Hnew.
      apply not_elem_of_dom in Hnew.
      assert (id ∉ (owners ++ background s)%list.*1) as Hnotin.
      { intros Hin. apply Hdom in Hin. rewrite Hnew in Hin.
        by destruct Hin. }
      exists owners. cbn [loop background world globals Server.tasks
                          Server.set_tasks].
      split_and!.
      * done.
      * rewrite app_assoc, fmap_app. cbn.
        apply NoDup_app. split_and!; [done| |apply NoDup_singleton].
        intros x Hx ->%list_elem_of_singleton. done.
      * intros id'. rewrite app_assoc, fmap_app, elem_of_app. cbn.
        rewrite list_elem_of_singleton.
        destruct (decide (id' = id)) as [->|Hne].
        -- rewrite lookup_insert_eq. split; [by right | by eauto].
        -- rewrite lookup_insert_ne by done. rewrite Hdom.
           split; [by left | by intros [?|?]].
      * intros b [Hb| ->%list_elem_of_singleton]%elem_of_app.
        -- rewrite lookup_insert_ne; [by apply Hbg|].
           intros Heq. apply Hnotin. rewrite Heq, fmap_app, elem_of_app.
           right. by apply list_elem_of_fmap_2.
        -- apply lookup_insert_eq.
      * intros j b p Hj Hp. destruct (Hloop j b p Hj Hp) as (r & Hr & Hok).
        exists r. split; [|done]. rewrite lookup_insert_ne; [done|].
        intros Heq. apply Hnotin. rewrite Heq, fmap_app, elem_of_app. left.
        apply list_elem_of_fmap_2. by eapply list_elem_of_lookup_2.
    + exists owners. by split_and!.
  - (* the framework starts a background task *)
    unfold dispatch. destruct (background s) as [|b rest] eqn:Hb.
    { exists owners. rewrite Hb. by split_and!. }
    cbn. exists (owners ++ [b])%list. cbn.
    rewrite <- !app_assoc. cbn. split_and!.
    + rewrite !length_app. cbn. lia.
    + done.
    + done.
    + intros b' Hb'. apply Hbg. by right.
    + intros j b' p Hj Hp.
      destruct (decide (j < length owners)) as [Hlt|Hge].
      * rewrite lookup_app_l in Hj by done.
        rewrite lookup_app_l in Hp by lia. by eapply Hloop.
      * rewrite lookup_app_r in Hj by lia.
        rewrite lookup_app_r in Hp by lia. rewrite Hlen in Hj.
        destruct (j - length (loop s)) as [|k]; [|done].
        cbn in Hj, Hp. simplify_eq.
        exists Server.new_record. split; [apply Hbg; by left|].
        by left.
  - (* a turn of the loop *)
    unfold turn. destruct (loop s !! i) as [p|] eqn:Hp.
    2: { exists owners. by split_and!. }
    destruct (finished p) eqn:Hfin.
    { exists owners. by split_and!. }
    destruct (lookup_lt_is_Some_2 owners i) as [b Hi].
    { rewrite Hlen. by eapply lookup_lt_Some. }
    destruct (Hloop i b p Hi Hp) as (r & Hr & Hok).
    destruct (resume env p (world s)) as [p' w'] eqn:Hrun.
    destruct (run_task_step env _ _ _ _ _ _ _ Hok Hr Hrun)
      as (r' & Hr' & Hok' & _ & Hframe).
    assert (forall id, is_Some (Server.tasks (globals w') !! id)
                       <-> is_Some (Server.tasks (globals (world s)) !! id))
      as Hsame.
    { intros id. destruct (decide (id = b.1)) as [->|Hne].
      - rewrite Hr, Hr'. split; eauto.
      - by rewrite Hframe. }
    assert (forall b', b' ∈ background s -> b'.1 <> b.1) as Hbgne.
    { intros b' Hb' Heq. rewrite fmap_app in Hnodup.
      apply NoDup_app in Hnodup as (_ & Hdisj & _).
      apply (Hdisj b.1).
      - apply list_elem_of_fmap_2. by eapply list_elem_of_lookup_2.
      - rewrite <- Heq. by apply list_elem_of_fmap_2. }
    exists owners. cbn. split_and!.
    + by rewrite length_insert.
    + done.
    + intros id. by rewrite Hsame.
    + intros b' Hb'. rewrite Hframe; [by apply Hbg | by apply Hbgne].
    + intros j b' q Hj Hq. destruct (decide (j = i)) as [->|Hne].
      * rewrite list_lookup_insert_eq in Hq by (by eapply lookup_lt_Some).
        simplify_eq. eauto.
      * rewrite list_lookup_insert_ne in Hq by done.
        destruct (Hloop j b' q Hj Hq) as (rq & Hrq & Hokq).
        exists rq. split; [|done]. rewrite Hframe; [done|].
        intros Heq. apply Hne. rewrite fmap_app in Hnodup.
        apply NoDup_app in Hnodup as (Hnd & _ & _).
        eapply NoDup_lookup; [exact Hnd | |].
        -- rewrite list_lookup_fmap, Hj. cbn. by rewrite Heq.
        -- by rewrite list_lookup_fmap, Hi.
Qed.

Lemma server_lifecycle_steps env evs s :
  uuid4_fresh env ->
  process_inv (fun g => dom (Server.tasks g)) env s ->
  lifecycle_inv s ->
  lifecycle_inv (steps Server.create_task server_launch env evs s).
Proof.
  intros Hfresh. revert s.
  induction evs as [|ev evs IH]; intros s Hproc Hlife; [done|].
  cbn. apply IH.
  - by apply (process_inv_step _ _ _ server_create_spec server_launch_spec).
  - by apply lifecycle_step.
Qed.

Lemma server_lifecycle env evs :
  uuid4_fresh env -> lifecycle_inv (server_steps env evs).
Proof.
  intros Hfresh. apply server_lifecycle_steps; [done| |apply lifecycle_boot].
  by apply process_inv_boot.
Qed.





(** X2: in [server.py], with an identifier generator that never
    repeats, no request, background start or turn of the loop moves a
    record backwards: its status keeps its place or advances along
    pending, running, completed or failed, and a record that is
    [completed] or [failed] is never changed again. *)
Theorem server_status_only_advances env evs ev task_id r :
  uuid4_fresh env ->
  let s := server_steps env evs in
  let s' := step Server.create_task server_launch env s ev in
  Server.tasks (globals (world s)) !! task_id = Some r ->
  exists r',
    Server.tasks (globals (world s')) !! task_id = Some r'
    /\ Server.rank (Server.status r) <= Server.rank (Server.status r')
    /\ (Server.rank (Server.status r) = 2 -> r' = r).
Proof.
  intros Hfresh s s' Hr.
  destruct (server_lifecycle env evs Hfresh)
    as (owners & Hlen & Hnodup & Hdom & Hbg & Hloop).
  fold s in Hlen, Hnodup, Hdom, Hbg, Hloop.
  subst s'. destruct ev as [request| |i]; cbn [step].
  - unfold submit. unfold_turn.
    destruct (answer env Uuid4 (world s)) as [id|e] eqn:Ha; unfold_turn;
      cbn [result_of world globals Server.tasks Server.set_tasks].
    + pose proof (process_inv_fresh _ env s id Hfresh
                    (server_process_inv env evs) Ha) as Hnew.
      apply not_elem_of_dom in Hnew.
      exists r. rewrite lookup_insert_ne by congruence. by split_and!.
    + exists r. by split_and!.
  - unfold dispatch. destruct (background s) as [|b rest]; cbn;
      exists r; by split_and!.
  - unfold turn. destruct (loop s !! i) as [p|] eqn:Hp;
      [|exists r; by split_and!].
    destruct (finished p) eqn:Hfin; [exists r; by split_and!|].
    destruct (lookup_lt_is_Some_2 owners i) as [b Hi].
    { rewrite Hlen. by eapply lookup_lt_Some. }
    destruct (Hloop i b p Hi Hp) as (rb & Hrb & Hok).
    destruct (resume env p (world s)) as [p' w'] eqn:Hrun.
    destruct (run_task_step env _ _ _ _ _ _ _ Hok Hrb Hrun)
      as (r' & Hr' & Hok' & Hrank & Hframe).
    cbn [world]. destruct (decide (task_id = b.1)) as [->|Hne].
    + rewrite Hr in Hrb. injection Hrb as <-.
      exists r'. split_and!; [done..|]. intros Hend.
      destruct Hok as [[-> ->]|[[[[? ->]|[? ->]] ->]|(-> & _ & _)]];
        cbn in Hend, Hfin; congruence.
    + exists r. rewrite Hframe by done. by split_and!.
Qed.

Lemma server_status_only_advances_witness :
  let env := raising is_start TimeoutError all_fine in
  let evs := [Submit {| task := "default"; custom_task := None |};
              Dispatch; Resume 0] in
  exists r',
    Server.tasks (globals (world (server_steps env (evs ++ [Resume 0]))))
    !! "0" = Some r'
    /\ 1 <= Server.rank (Server.status r').
Proof.
  intros env evs.
  destruct (server_status_only_advances env evs (Resume 0) "0"
              {| Server.status := Server.running; Server.result := None;
                 Server.error := None |}) as (r' & Hr' & Hrank & _).
  - intros i j id. unfold env, raising. cbn. intros [= <-] [= Hj].
    by apply (inj pretty) in Hj.
  - reflexivity.
  - exists r'. split; [exact Hr' | exact Hrank].
Defined.


Ltac close_run_task_state :=
  unfold Server.run_task_state;
  first [ by (right; right; right)
        | by (right; left; eexists)
        | by (right; right; left; eexists) ].

Ltac close_state_step :=
  intros [= <- <-]; run_prog; split_and!;
  [ close_run_task_state
  | intros _; cbn [position]; lia
  | unfold agent_texts; cbn [calls omap list_omap agent_text]; auto
  | cbn [globals Server.browser_session Server.set_tasks
         Server.set_llm_model Server.set_browser_session];
    intros; congruence
  | cbn [globals Server.llm_model Server.set_tasks
         Server.set_llm_model Server.set_browser_session];
    intros; congruence ].

(** What a turn of [run_task] does besides its record: it moves on to
    a later await or ends, constructs the agent with its own text if at
    all, and leaves cached singletons cached. *)
Lemma run_task_state_step env task_id task_text p w p' w' :
  Server.run_task_state task_id task_text p ->
  resume env p w = (p', w') ->
  Server.run_task_state task_id task_text p'
  /\ (finished p = false -> position p < position p')
  /\ (agent_texts (calls w') = agent_texts (calls w)
      \/ agent_texts (calls w') = task_text :: agent_texts (calls w))
  /\ (forall b, Server.browser_session (globals w) = Some b ->
                Server.browser_session (globals w') = Some b)
  /\ (forall l, Server.llm_model (globals w) = Some l ->
                Server.llm_model (globals w') = Some l).
Proof.
  intros [->|[[b ->]|[[a ->]|Hfin]]].
  - run_turn; close_state_step.
  - run_turn; close_state_step.
  - run_turn; close_state_step.
  - rewrite resume_finished by done. intros [= <- <-].
    split_and!; [by right; right; right | congruence | by left | done..].
Qed.

Ltac close_task_state :=
  unfold App.task_state;
  first [ by (do 4 right)
        | by (right; left; eexists)
        | by (right; right; left; do 2 eexists)
        | by (right; right; right; left; eexists) ].

Lemma app_alter_text (f : App.TaskRecord -> App.TaskRecord) (id : string)
    (m : gmap string App.TaskRecord) (id' : string) r' :
  (forall r, App.task_text (f r) = App.task_text r) ->
  alter f id m !! id' = Some r' ->
  exists r, m !! id' = Some r /\ App.task_text r = App.task_text r'.
Proof.
  intros Hf. destruct (decide (id = id')) as [->|Hne].
  - rewrite lookup_alter_eq. destruct (m !! id') as [r|]; [|done].
    intros [= <-]. eauto.
  - rewrite lookup_alter_ne by done. eauto.
Qed.

Ltac close_task_step :=
  intros [= <- <-]; run_prog; split_and!;
  [ close_task_state
  | intros _; cbn [position]; lia
  | unfold agent_texts; cbn [calls omap list_omap agent_text]; eauto
  | cbn [globals App.tasks App.set_tasks]; intros id' r' Hr';
    repeat match goal with
           | H : alter _ _ _ !! _ = Some _ |- _ =>
               apply app_alter_text in H as (? & H & <-); [|done]
           end;
    eauto ].

(** What a turn of [_async_run_task] does: it moves on to a later await
    or ends, constructs the agent with the text kept in its record if at
    all, and changes the text of no record. *)
Lemma task_state_step env task_id p w p' w' :
  App.task_state task_id p ->
  resume env p w = (p', w') ->
  App.task_state task_id p'
  /\ (finished p = false -> position p < position p')
  /\ (agent_texts (calls w') = agent_texts (calls w)
      \/ exists r, App.tasks (globals w) !! task_id = Some r
                   /\ agent_texts (calls w')
                      = App.task_text r :: agent_texts (calls w))
  /\ (forall id' r', App.tasks (globals w') !! id' = Some r' ->
        exists r, App.tasks (globals w) !! id' = Some r
                  /\ App.task_text r = App.task_text r').
Proof.
  intros [->|[[b ->]|[(a & b & ->)|[[b ->]|Hfin]]]].
  - run_turn; close_task_step.
  - run_turn; close_task_step.
  - run_turn; close_task_step.
  - run_turn; close_task_step.
  - rewrite resume_finished by done. intros [= <- <-].
    split_and!; [by do 4 right | congruence | by left | eauto].
Qed.


(** ** The dictionary of tasks: what is in it and what stays *)

Section ProcessGrowth.
Context {G B : Type}.
Variable keys : G -> gset string.
Variable create : TaskRequest -> list B -> Prog G (TaskResponse * list B).
Variable launch : B -> Prog G (list (Prog G unit)).
Hypothesis create_spec : forall env request w,
  match answer env Uuid4 w with
  | Returns id =>
      exists b g',
        exec env (create request []) w
        = (Ret ({| resp_task_id := id; resp_status := "started";
                   resp_message := "Task created successfully" |}, [b]),
           {| globals := g'; calls := logged Uuid4 (Returns id) :: calls w |})
        /\ keys g' = {[id]} ∪ keys (globals w)
  | Raises e =>
      exec env (create request []) w = (Throw e, record Uuid4 (Raises e) w)
  end.
Hypothesis launch_spec : forall env b w,
  keys (globals (exec env (launch b) w).2) = keys (globals w)
  /\ forall ps, (exec env (launch b) w).1 = Ret ps ->
       Forall (stable (fun g g' => keys g' = keys g)) ps.

(** The responses of a process only grow. *)
Lemma responses_grow env (s : Process G B) ev :
  exists l, responses (step create launch env s ev)
            = (responses s ++ l)%list.
Proof.
  destruct ev as [request| |i]; cbn [step].
  - unfold submit. destruct (exec env (create request []) (world s)) as [p w].
    destruct (result_of p) as [[[resp bts]|e]|]; cbn;
      [by eexists | exists []; by rewrite app_nil_r..].
  - unfold dispatch. destruct (background s) as [|b rest];
      [exists []; by rewrite app_nil_r|].
    destruct (exec env (launch b) (world s)) as [p w].
    destruct (result_of p) as [[ps|e]|]; cbn;
      exists []; by rewrite app_nil_r.
  - unfold turn. destruct (loop s !! i) as [p|];
      [|exists []; by rewrite app_nil_r].
    destruct (finished p); [exists []; by rewrite app_nil_r|].
    destruct (resume env p (world s)) as [p' w']. cbn.
    exists []. by rewrite app_nil_r.
Qed.

End ProcessGrowth.




(** X4: no request, background start or turn of the loop removes a
    record: the keys of [tasks] after a step include the keys before,
    so the count of [GET /tasks] never goes down; in [server.py] as in
    [app.py]. *)
Theorem no_step_removes_a_record env evs ev :
  let s := server_steps env evs in
  let a := app_steps env evs in
  let s' := step Server.create_task server_launch env s ev in
  let a' := step App.create_task App.run_agent_task env a ev in
  dom (Server.tasks (globals (world s)))
    ⊆ dom (Server.tasks (globals (world s')))
  /\ size (Server.tasks (globals (world s)))
     <= size (Server.tasks (globals (world s')))
  /\ dom (App.tasks (globals (world a))) ⊆ dom (App.tasks (globals (world a')))
  /\ size (App.tasks (globals (world a)))
     <= size (App.tasks (globals (world a'))).
Proof.
  intros s a s' a'.
  assert (dom (Server.tasks (globals (world s)))
            ⊆ dom (Server.tasks (globals (world s')))) as Hs.
  { destruct (server_process_inv env evs) as (Hk0 & _ & _).
    destruct (process_inv_step _ _ _ server_create_spec server_launch_spec
                env _ ev (server_process_inv env evs)) as (Hk & _ & _).
    fold s in Hk0. fold s s' in Hk. cbn beta in Hk0, Hk. rewrite Hk0, Hk.
    destruct (responses_grow Server.create_task server_launch env s ev)
      as [l Hl].
    fold s' in Hl. rewrite Hl, fmap_app, list_to_set_app_L.
    apply union_subseteq_l. }
  assert (dom (App.tasks (globals (world a)))
            ⊆ dom (App.tasks (globals (world a')))) as Ha.
  { destruct (app_process_inv env evs) as (Hk0 & _ & _).
    destruct (process_inv_step _ _ _ app_create_spec app_launch_spec
                env _ ev (app_process_inv env evs)) as (Hk & _ & _).
    fold a in Hk0. fold a a' in Hk. cbn beta in Hk0, Hk. rewrite Hk0, Hk.
    destruct (responses_grow App.create_task App.run_agent_task env a ev)
      as [l Hl].
    fold a' in Hl. rewrite Hl, fmap_app, list_to_set_app_L.
    apply union_subseteq_l. }
  split_and!; [done | | done |].
  - rewrite <- !size_dom. by apply subseteq_size.
  - rewrite <- !size_dom. by apply subseteq_size.
Qed.


(** ** Edge behaviour of submission and execution *)

(** X5: [create_task] does not look whether the identifier it drew is
    in use: when it is, the record under it is replaced by a new
    [pending] record, whatever it held, the other records and the
    number of records stay as they were; in [server.py] as in
    [app.py]. *)
Theorem create_task_overwrites_existing_id env request task_id :
  (forall w r,
     answer env Uuid4 w = Returns task_id ->
     Server.tasks (globals w) !! task_id = Some r ->
     let w' := (exec env (Server.create_task request []) w).2 in
     Server.tasks (globals w') !! task_id = Some Server.new_record
     /\ size (Server.tasks (globals w')) = size (Server.tasks (globals w))
     /\ forall id', id' <> task_id ->
          Server.tasks (globals w') !! id' = Server.tasks (globals w) !! id')
  /\ (forall w r,
        answer env Uuid4 w = Returns task_id ->
        App.tasks (globals w) !! task_id = Some r ->
        let w' := (exec env (App.create_task request []) w).2 in
        App.tasks (globals w') !! task_id
        = Some {| App.status := App.pending;
                  App.task_text := final_task request;
                  App.result := None; App.error := None |}
        /\ size (App.tasks (globals w')) = size (App.tasks (globals w))
        /\ forall id', id' <> task_id ->
             App.tasks (globals w') !! id' = App.tasks (globals w) !! id').
Proof.
  split; intros w r Ha Hr w'; subst w'; run_prog;
    cbn [Server.tasks Server.set_tasks App.tasks App.set_tasks globals].
  - split_and!; [done | by eapply map_size_insert_Some |].
    intros id' Hne. by rewrite lookup_insert_ne.
  - split_and!; [done | by eapply map_size_insert_Some |].
    intros id' Hne. by rewrite lookup_insert_ne.
Qed.

Lemma create_task_overwrites_existing_id_witness :
  let request := {| task := "default"; custom_task := None |} in
  let repeating : Env := fun n R c =>
    match c in Ext R return Outcome R with
    | Uuid4 => Returns "same"
    | c => all_fine n _ c
    end in
  let s := server_steps repeating
             [Submit request; Dispatch; Resume 0; Resume 0; Resume 0] in
  Server.status <$> Server.tasks (globals (world s)) !! "same"
  = Some Server.completed
  /\ Server.tasks
       (globals (exec repeating (Server.create_task request []) (world s)).2)
     !! "same" = Some Server.new_record.
Proof.
  intros request repeating s. split; [reflexivity|].
  destruct (create_task_overwrites_existing_id repeating request "same")
    as [Hs _].
  eapply Hs; reflexivity.
Defined.

(** X6: an executor started for an identifier that is not a key of
    [tasks] raises [KeyError]: the first assignment raises it, the
    handler's assignment raises it again, and it leaves the coroutine
    with nothing written and no library call made; so [run_task] of
    [server.py] and [_async_run_task] of [app.py]. *)
Theorem executor_without_record_raises_key_error env task_id task_text :
  (forall w, Server.tasks (globals w) !! task_id = None ->
     resume env (Server.run_task task_id task_text) w
     = (Throw (KeyError task_id), w))
  /\ (forall w, App.tasks (globals w) !! task_id = None ->
        resume env (App._async_run_task task_id) w
        = (Throw (KeyError task_id), w)).
Proof.
  split; intros w Hw; run_prog; by destruct w.
Qed.

Lemma executor_without_record_raises_key_error_witness :
  resume all_fine (Server.run_task "0" "go") Server.cold
  = (Throw (KeyError "0"), Server.cold)
  /\ str (KeyError "0") = "'0'".
Proof.
  split; [|reflexivity].
  apply (executor_without_record_raises_key_error all_fine "0" "go").
  reflexivity.
Defined.

(** Updates of one record only. *)
Ltac prove_frame :=
  repeat first
    [ progress unfold_turn
    | progress cbn [Server.tasks Server.set_tasks Server.set_browser_session
                    Server.set_llm_model App.tasks App.set_tasks]
    | by (intros; rewrite lookup_alter_ne)
    | constructor
    | intro
    | match goal with
      | |- context [outcome ?o _] => destruct o
      end
    | match goal with
      | |- context [Server.startup_failed ?e] => is_var e; destruct e
      end
    | match goal with
      | |- context [match ?x with _ => _ end] => destruct x
      end ].

Lemma server_run_task_frame task_id task_text :
  stable (fun g g' => forall id', id' <> task_id ->
            Server.tasks g' !! id' = Server.tasks g !! id')
    (Server.run_task task_id task_text).
Proof. prove_frame. Qed.

Lemma app_async_run_task_frame task_id :
  stable (fun g g' => forall id', id' <> task_id ->
            App.tasks g' !! id' = App.tasks g !! id')
    (App._async_run_task task_id).
Proof. prove_frame. Qed.

Lemma residual_stable {G A} (P : G -> G -> Prop) env (p0 p : Prog G A) :
  (forall g, P g g) -> (forall g1 g2 g3, P g1 g2 -> P g2 g3 -> P g1 g3) ->
  stable P p0 -> residual env p0 p -> stable P p.
Proof.
  intros Hrefl Htrans Hp0. induction 1 as [|p w _ IH]; [done|].
  by apply resume_stable.
Qed.

(** X7: whatever state an executor is in and whatever the library
    answers, a turn of it changes no record but its own: every other
    key of [tasks] holds after the turn what it held before; so
    [run_task] of [server.py] and [_async_run_task] of [app.py]. *)
Theorem executor_turn_touches_own_record_only env task_id task_text :
  (forall p w id',
     residual env (Server.run_task task_id task_text) p ->
     id' <> task_id ->
     Server.tasks (globals (resume env p w).2) !! id'
     = Server.tasks (globals w) !! id')
  /\ (forall p w id',
        residual env (App._async_run_task task_id) p ->
        id' <> task_id ->
        App.tasks (globals (resume env p w).2) !! id'
        = App.tasks (globals w) !! id').
Proof.
  split; intros p w id' Hres Hne.
  - eapply (resume_stable (fun g g' => forall id', id' <> task_id ->
              Server.tasks g' !! id' = Server.tasks g !! id')); [done| | |done].
    + intros g1 g2 g3 H1 H2 i Hi. by rewrite H2, H1.
    + eapply residual_stable; [done| |apply server_run_task_frame|done].
      intros g1 g2 g3 H1 H2 i Hi. by rewrite H2, H1.
  - eapply (resume_stable (fun g g' => forall id', id' <> task_id ->
              App.tasks g' !! id' = App.tasks g !! id')); [done| | |done].
    + intros g1 g2 g3 H1 H2 i Hi. by rewrite H2, H1.
    + eapply residual_stable; [done| |apply app_async_run_task_frame|done].
      intros g1 g2 g3 H1 H2 i Hi. by rewrite H2, H1.
Qed.

Lemma executor_turn_touches_own_record_only_witness :
  let evs := [Submit {| task := "default"; custom_task := None |};
              Submit {| task := "default"; custom_task := Some "go" |};
              Dispatch] in
  let w := world (server_steps all_fine evs) in
  Server.tasks (globals (resume all_fine (Server.run_task "0" default_task) w).2)
  !! "1" = Some Server.new_record.
Proof.
  intros evs w.
  destruct (executor_turn_touches_own_record_only all_fine "0" default_task)
    as [Hs _].
  rewrite (Hs _ w "1"); [reflexivity | apply residual_entry | discriminate].
Defined.

(** X8: an executor is done after few turns, whatever the library
    answers and whatever the other coroutines did in between: each turn
    takes it to a later await or to its end, so [run_task] ends within
    three turns and [_async_run_task] within four. *)
Theorem executor_ends_within_its_awaits env task_id task_text :
  (forall w1 w2 w3,
     let p1 := (resume env (Server.run_task task_id task_text) w1).1 in
     let p2 := (resume env p1 w2).1 in
     finished (resume env p2 w3).1 = true)
  /\ (forall w1 w2 w3 w4,
        let p1 := (resume env (App._async_run_task task_id) w1).1 in
        let p2 := (resume env p1 w2).1 in
        let p3 := (resume env p2 w3).1 in
        finished (resume env p3 w4).1 = true).
Proof.
  assert (forall {G A} (p : Prog G A), 4 <= position p -> finished p = true)
    as Hend.
  { intros G A [a|e|k|f k|R c k|R c k]; cbn; try done; try lia.
    destruct c; lia. }
  assert (forall {G A} (p : Prog G A), finished p = true -> position p = 4)
    as Hpos by (intros G A [a|e|k|f k|R c k|R c k]; by cbn).
  assert (forall {G A} env (q q' : Prog G A) v v',
            resume env q v = (q', v') ->
            (finished q = false -> position q < position q') ->
            position q <= 4 -> S (position q) `min` 4 <= position q')
    as Hstep.
  { intros G A env' q q' v v' Hr Hp Hle. destruct (finished q) eqn:F.
    - rewrite resume_finished in Hr by done. injection Hr as <- <-.
      apply Hpos in F. lia.
    - specialize (Hp eq_refl). lia. }
  split.
  - intros w1 w2 w3 p1 p2.
    destruct (resume env (Server.run_task task_id task_text) w1)
      as [q1 v1] eqn:H1.
    destruct (run_task_state_step env task_id task_text _ _ _ _
                (or_introl eq_refl) H1) as (S1 & P1 & _).
    subst p1 p2. cbn [fst].
    destruct (resume env q1 w2) as [q2 v2] eqn:H2.
    destruct (run_task_state_step env _ _ _ _ _ _ S1 H2) as (S2 & P2 & _).
    cbn [fst].
    destruct (resume env q2 w3) as [q3 v3] eqn:H3.
    destruct (run_task_state_step env _ _ _ _ _ _ S2 H3) as (S3 & P3 & _).
    cbn [fst].
    assert (forall q, Server.run_task_state task_id task_text q ->
              position q <= 2 \/ finished q = true) as Hle.
    { intros q [->|[[b ->]|[[a ->]|F]]]; cbn; auto. }
    assert (forall q, Server.run_task_state task_id task_text q ->
              position q <= 4) as Hle4.
    { intros q Hq. destruct (Hle q Hq) as [?|F]; [lia|].
      apply Hpos in F. lia. }
    pose proof (Hstep _ _ _ _ _ _ _ H1 P1 (Hle4 _ (or_introl eq_refl))).
    pose proof (Hstep _ _ _ _ _ _ _ H2 P2 (Hle4 _ S1)).
    pose proof (Hstep _ _ _ _ _ _ _ H3 P3 (Hle4 _ S2)).
    destruct (Hle q3 S3) as [?|F]; [|done].
    assert (position (Server.run_task task_id task_text) = 0) by done.
    lia.
  - intros w1 w2 w3 w4 p1 p2 p3.
    destruct (resume env (App._async_run_task task_id) w1)
      as [q1 v1] eqn:H1.
    destruct (task_state_step env task_id _ _ _ _ (or_introl eq_refl) H1)
      as (S1 & P1 & _).
    subst p1 p2 p3. cbn [fst].
    destruct (resume env q1 w2) as [q2 v2] eqn:H2.
    destruct (task_state_step env _ _ _ _ _ S1 H2) as (S2 & P2 & _).
    cbn [fst].
    destruct (resume env q2 w3) as [q3 v3] eqn:H3.
    destruct (task_state_step env _ _ _ _ _ S2 H3) as (S3 & P3 & _).
    cbn [fst].
    destruct (resume env q3 w4) as [q4 v4] eqn:H4.
    destruct (task_state_step env _ _ _ _ _ S3 H4) as (S4 & P4 & _).
    cbn [fst]. apply Hend.
    assert (forall q, App.task_state task_id q -> position q <= 4) as Hle.
    { intros q [->|[[b ->]|[(a & b & ->)|[[b ->]|F]]]]; cbn; try lia.
      apply Hpos in F. lia. }
    pose proof (Hstep _ _ _ _ _ _ _ H1 P1 (Hle _ (or_introl eq_refl))).
    pose proof (Hstep _ _ _ _ _ _ _ H2 P2 (Hle _ S1)).
    pose proof (Hstep _ _ _ _ _ _ _ H3 P3 (Hle _ S2)).
    pose proof (Hstep _ _ _ _ _ _ _ H4 P4 (Hle _ S3)).
    assert (position (App._async_run_task task_id) = 0) by done.
    lia.
Qed.


(** ** server.py: the lazy singletons, call by call *)

Lemma get_llm_cached env w l :
  Server.llm_model (globals w) = Some l ->
  exec env Server.get_llm w = (Ret (Some l), w).
Proof. intros Hl. run_turn. by destruct w. Qed.

Lemma get_llm_returns env w w1 r :
  exec env Server.get_llm w = (Ret r, w1) ->
  exists l, r = Some l /\ Server.llm_model (globals w1) = Some l.
Proof. run_turn; intros [= <- <-]; by eexists. Qed.

Lemma get_browser_returns env w w1 r :
  run env 2 Server.get_browser w = (Ret r, w1) ->
  exists b, r = Some b /\ Server.browser_session (globals w1) = Some b.
Proof. cbn [run]. run_turn; intros [= <- <-]; by eexists. Qed.

(** X10.  Once [get_llm] or [get_browser] has returned, it returned an
    object and not [None], and the next call, whatever the libraries
    would answer, returns the same object without any library call and
    without touching the module state. *)
Theorem second_call_returns_cached_object env env' w w1 r :
  (exec env Server.get_llm w = (Ret r, w1) ->
   is_Some r /\ exec env' Server.get_llm w1 = (Ret r, w1))
  /\ (run env 2 Server.get_browser w = (Ret r, w1) ->
      is_Some r /\ exec env' Server.get_browser w1 = (Ret r, w1)).
Proof.
  split.
  - intros (l & -> & Hl)%get_llm_returns.
    split; [by eexists|]. by apply get_llm_cached.
  - intros (b & -> & Hb)%get_browser_returns.
    split; [by eexists|]. by apply ServerFacts.get_browser_cached.
Qed.

Lemma second_call_returns_cached_object_witness :
  (is_Some (Some 1)
   /\ exec (raising is_llm TimeoutError all_fine) Server.get_llm
        {| globals := Server.set_llm_model (Some 1) Server.init;
           calls := [logged (NewChatOpenAI "gpt-4o-mini") (Returns 1);
                     logged (Import "browser_use.llm.openai.chat")
                       (Returns tt)] |}
      = (Ret (Some 1),
         {| globals := Server.set_llm_model (Some 1) Server.init;
            calls := [logged (NewChatOpenAI "gpt-4o-mini") (Returns 1);
                      logged (Import "browser_use.llm.openai.chat")
                        (Returns tt)] |})).
Proof.
  apply (second_call_returns_cached_object all_fine
           (raising is_llm TimeoutError all_fine) Server.cold _ (Some 1)).
  reflexivity.
Defined.






(** ** Which instructions reach an agent *)

Lemma server_texts_step (ok : string -> Prop) env s ev :
  (forall request, ev = Submit request -> ok (final_task request)) ->
  server_texts_inv ok s ->
  server_texts_inv ok (step Server.create_task server_launch env s ev).
Proof.
  intros Hev (Hbg & Hloop & Hlog).
  destruct ev as [request| |i]; cbn [step].
  - unfold submit. unfold_turn.
    destruct (answer env Uuid4 (world s)) as [id|e]; unfold_turn;
      cbn [result_of]; (split_and!; cbn [background loop world calls]);
      try done.
    apply Forall_app. split; [done|]. apply Forall_singleton. cbn. eauto.
  - unfold dispatch. destruct (background s) as [|b rest] eqn:Hb.
    { split_and!; [by rewrite Hb|done..]. }
    apply Forall_cons in Hbg as [Hok Hrest].
    cbn. split_and!; [done| |done].
    apply Forall_app. split; [done|]. apply Forall_singleton.
    exists b.1, b.2. split; [done|]. by left.
  - unfold turn. destruct (loop s !! i) as [p|] eqn:Hp; [|by split_and!].
    destruct (finished p); [by split_and!|].
    destruct (resume env p (world s)) as [p' w'] eqn:Hrun.
    pose proof (proj1 (Forall_lookup _ _) Hloop i p Hp)
      as (task_id & task_text & Hok & Hstate).
    destruct (run_task_state_step env _ _ _ _ _ _ Hstate Hrun)
      as (Hstate' & _ & Htexts & _).
    split_and!; cbn [world loop background]; [done| |].
    + apply Forall_insert; [done|]. eauto.
    + destruct Htexts as [->| ->]; [done|]. by apply Forall_cons.
Qed.

Lemma server_texts_steps (ok : string -> Prop) env evs s :
  (forall request, Submit request ∈ evs -> ok (final_task request)) ->
  server_texts_inv ok s ->
  server_texts_inv ok (steps Server.create_task server_launch env evs s).
Proof.
  revert s. induction evs as [|ev evs IH]; intros s Hevs Hinv; [done|].
  cbn. apply IH.
  - intros request Hin. apply Hevs. by right.
  - apply server_texts_step; [|done].
    intros request ->. apply Hevs. by left.
Qed.

Lemma server_texts (ok : string -> Prop) env evs :
  (forall request, Submit request ∈ evs -> ok (final_task request)) ->
  server_texts_inv ok (server_steps env evs).
Proof.
  intros Hevs. apply server_texts_steps; [done|]. by split_and!.
Qed.

Lemma app_texts_step (ok : string -> Prop) env s ev :
  (forall request, ev = Submit request -> ok (final_task request)) ->
  app_texts_inv ok s ->
  app_texts_inv ok (step App.create_task App.run_agent_task env s ev).
Proof.
  intros Hev (Hrec & Hloop & Hlog).
  destruct ev as [request| |i]; cbn [step].
  - unfold submit. unfold_turn.
    destruct (answer env Uuid4 (world s)) as [id|e]; unfold_turn;
      cbn [result_of]; (split_and!; cbn [background loop world calls globals
                                         App.tasks App.set_tasks]);
      try done.
    intros task_id r. destruct (decide (task_id = id)) as [->|Hne].
    + rewrite lookup_insert_eq. intros [= <-]. cbn. eauto.
    + rewrite lookup_insert_ne by done. apply Hrec.
  - unfold dispatch. destruct (background s) as [|b rest] eqn:Hb.
    { by split_and!. }
    unfold_turn.
    destruct (answer env AsyncioCreateTask (world s)) as [[]|e]; unfold_turn;
      cbn [result_of]; (split_and!; cbn [background loop world calls globals]);
      try done.
    apply Forall_app. split; [done|]. apply Forall_singleton.
    exists b. by left.
  - unfold turn. destruct (loop s !! i) as [p|] eqn:Hp; [|by split_and!].
    destruct (finished p); [by split_and!|].
    destruct (resume env p (world s)) as [p' w'] eqn:Hrun.
    pose proof (proj1 (Forall_lookup _ _) Hloop i p Hp) as (task_id & Hstate).
    destruct (task_state_step env _ _ _ _ _ Hstate Hrun)
      as (Hstate' & _ & Htexts & Hkeep).
    split_and!; cbn [world loop background].
    + intros id' r' Hr'. destruct (Hkeep id' r' Hr') as (r & Hr & <-).
      by eapply Hrec.
    + apply Forall_insert; [done|]. eauto.
    + destruct Htexts as [->|(r & Hr & ->)]; [done|].
      apply Forall_cons. split; [by eapply Hrec|done].
Qed.

Lemma app_texts_steps (ok : string -> Prop) env evs s :
  (forall request, Submit request ∈ evs -> ok (final_task request)) ->
  app_texts_inv ok s ->
  app_texts_inv ok (steps App.create_task App.run_agent_task env evs s).
Proof.
  revert s. induction evs as [|ev evs IH]; intros s Hevs Hinv; [done|].
  cbn. apply IH.
  - intros request Hin. apply Hevs. by right.
  - apply app_texts_step; [|done].
    intros request ->. apply Hevs. by left.
Qed.

Lemma app_texts (ok : string -> Prop) env evs :
  (forall request, Submit request ∈ evs -> ok (final_task request)) ->
  app_texts_inv ok (app_steps env evs).
Proof.
  intros Hevs. apply app_texts_steps; [done|]. by split_and!.
Qed.

(** X13.  Whatever the requests, the schedule and the answers of the
    libraries, every agent either server constructs is given the
    instruction of a request that was submitted: [final_task] of that
    request, and nothing else. *)
Theorem agents_run_submitted_instructions env evs text :
  (text ∈ agent_texts (calls (world (server_steps env evs))) ->
   exists request, Submit request ∈ evs /\ text = final_task request)
  /\ (text ∈ agent_texts (calls (world (app_steps env evs))) ->
      exists request, Submit request ∈ evs /\ text = final_task request).
Proof.
  split; intros Hin.
  - destruct (server_texts
                (fun t => exists request,
                            Submit request ∈ evs /\ t = final_task request)
                env evs) as (_ & _ & Hlog); [by eauto|].
    by apply (proj1 (Forall_forall _ _) Hlog).
  - destruct (app_texts
                (fun t => exists request,
                            Submit request ∈ evs /\ t = final_task request)
                env evs) as (_ & _ & Hlog); [by eauto|].
    by apply (proj1 (Forall_forall _ _) Hlog).
Qed.

Lemma agents_run_submitted_instructions_witness :
  exists request,
    Submit request
    ∈ [Submit {| task := "default"; custom_task := Some "open example.org" |};
       Dispatch; Resume 0; Resume 0]
    /\ "open example.org" = final_task request.
Proof.
  apply (agents_run_submitted_instructions all_fine
           [Submit {| task := "default";
                      custom_task := Some "open example.org" |};
            Dispatch; Resume 0; Resume 0] "open example.org").
  vm_compute. left.
Defined.


(** ** server.py: what [/health] reports *)

Lemma server_health_spec env w :
  exec env Server.health w
  = (Ret {| Server.health_status := "healthy";
            Server.health_browser :=
              match Server.browser_session (globals w) with
              | Some _ => "ready"
              | None => "not_started"
              end;
            Server.health_active_tasks :=
              length (List.filter Server.is_running
                        (map_to_list (Server.tasks (globals w))).*2);
            Server.health_server := "online" |}, w).
Proof. done. Qed.

(** X9.  A cached session and a cached model stay cached: no request,
    background start or turn of the loop clears or replaces them,
    whatever the libraries answer.  From the moment a session is
    assigned [/health] reports the browser as [ready], also when its
    [start()] fails afterwards. *)
Theorem cached_singletons_stay_cached env evs ev :
  let s := server_steps env evs in
  let s' := step Server.create_task server_launch env s ev in
  (forall b, Server.browser_session (globals (world s)) = Some b ->
     Server.browser_session (globals (world s')) = Some b
     /\ exists h, exec env Server.health (world s') = (Ret h, world s')
                  /\ Server.health_browser h = "ready")
  /\ (forall l, Server.llm_model (globals (world s)) = Some l ->
        Server.llm_model (globals (world s')) = Some l).
Proof.
  intros s s'.
  assert ((forall b, Server.browser_session (globals (world s)) = Some b ->
             Server.browser_session (globals (world s')) = Some b)
          /\ (forall l, Server.llm_model (globals (world s)) = Some l ->
                Server.llm_model (globals (world s')) = Some l)) as [Hb Hl].
  { subst s'. destruct ev as [request| |i]; cbn [step].
    - unfold submit. unfold_turn.
      destruct (answer env Uuid4 (world s)) as [id|e]; unfold_turn;
        cbn [result_of world globals]; done.
    - unfold dispatch. destruct (background s) as [|b rest]; done.
    - unfold turn. destruct (loop s !! i) as [p|] eqn:Hp; [|done].
      destruct (finished p); [done|].
      destruct (resume env p (world s)) as [p' w'] eqn:Hrun.
      destruct (server_texts (fun _ => True) env evs) as (_ & Hloop & _);
        [done|].
      pose proof (proj1 (Forall_lookup _ _) Hloop i p Hp)
        as (task_id & task_text & _ & Hstate).
      destruct (run_task_state_step env _ _ _ _ _ _ Hstate Hrun)
        as (_ & _ & _ & Hb & Hl).
      done. }
  split; [|done]. intros b Hs. split; [by apply Hb|].
  eexists. split; [apply server_health_spec|].
  cbn [Server.health_browser]. by rewrite (Hb b Hs).
Qed.

Lemma cached_singletons_stay_cached_witness :
  let env := raising is_start TimeoutError all_fine in
  let evs := [Submit {| task := "default"; custom_task := None |};
              Dispatch; Resume 0] in
  Server.browser_session (globals (world (server_steps env (evs ++ [Resume 0]))))
  = Some 3
  /\ exists h,
       exec env Server.health (world (server_steps env (evs ++ [Resume 0])))
       = (Ret h, world (server_steps env (evs ++ [Resume 0])))
       /\ Server.health_browser h = "ready".
Proof.
  intros env evs.
  apply (proj1 (cached_singletons_stay_cached env evs (Resume 0)) 3).
  reflexivity.
Defined.







(** ** app.py: the life cycle between turns *)

Ltac close_app_executor :=
  intros [= <- <-]; run_prog;
  repeat match goal with u : unit |- _ => destruct u end;
  eexists; split_and!;
  [ reflexivity
  | unfold App.executor_ok, App.untouched, App.consistent, App.with_status,
      App.with_result, App.with_error, App.success_result;
    cbn [App.status App.result App.error App.rank];
    first [ by (right; left; split_and!; [left; eexists|..])
          | by (right; left; split_and!; [right; do 2 eexists|..])
          | by (right; right; left; split_and!; [eexists|..])
          | by (do 3 right; split_and!; eauto; lia) ]
  | cbn [App.status App.rank App.with_status App.with_result
         App.with_error]; lia
  | done
  | intros id' Hne; cbn [App.tasks App.set_tasks globals];
    by rewrite ?lookup_alter_ne ].

(** A turn of [_async_run_task] keeps its record in step with its
    state, never changes the instruction, and changes no other record. *)
Lemma async_run_task_step env task_id p w r p' w' :
  App.executor_ok task_id p r ->
  App.tasks (globals w) !! task_id = Some r ->
  resume env p w = (p', w') ->
  exists r',
    App.tasks (globals w') !! task_id = Some r'
    /\ App.executor_ok task_id p' r'
    /\ App.rank (App.status r) <= App.rank (App.status r')
    /\ App.task_text r' = App.task_text r
    /\ forall id', id' <> task_id ->
         App.tasks (globals w') !! id' = App.tasks (globals w) !! id'.
Proof.
  intros [(-> & Hst & Hres & Herr)
         |[([[b ->]|(a & b & ->)] & Hst & Hres & Herr)
          |[([b ->] & Hst & Hres & Herr)|(-> & Hrank & Hcons)]]] Hr.
  1-4: destruct r as [st txt res err]; cbn in Hst, Hres, Herr; subst.
  - run_turn; close_app_executor.
  - run_turn; close_app_executor.
  - run_turn; close_app_executor.
  - run_turn; close_app_executor.
  - intros [= <- <-]. exists r. split_and!; [done| |done..].
    by do 3 right.
Qed.

Ltac solve_elem :=
  try (intros ?);
  repeat match goal with
         | H : _ ∈ _ |- _ =>
             rewrite ?elem_of_app, ?elem_of_cons, ?elem_of_nil in H
         end;
  rewrite ?elem_of_app, ?elem_of_cons, ?elem_of_nil;
  intuition (subst; auto).

Lemma app_lifecycle_boot : app_lifecycle_inv (boot App.init).
Proof.
  exists [], []. split_and!; cbn; try done.
  - constructor.
  - intros id. rewrite lookup_empty. split; [by intros [? ?]|].
    by intros ?%elem_of_nil.
  - intros b ?%elem_of_nil. done.
Qed.

Lemma app_lifecycle_step env s ev :
  uuid4_fresh env ->
  process_inv (fun g => dom (App.tasks g)) env s ->
  app_lifecycle_inv s ->
  app_lifecycle_inv (step App.create_task App.run_agent_task env s ev).
Proof.
  intros Hfresh Hproc (owners & orphans & Hlen & Hnodup & Hdom & Hbg & Hloop).
  destruct ev as [request| |i]; cbn [step].
  - (* a request *)
    unfold submit. unfold_turn.
    destruct (answer env Uuid4 (world s)) as [id|e] eqn:Ha; unfold_turn;
      cbn [result_of].
    + pose proof (process_inv_fresh _ env s id Hfresh Hproc Ha) as Hnew.
      apply not_elem_of_dom in Hnew.
      assert (id ∉ (owners ++ orphans ++ background s)%list) as Hnotin.
      { intros Hin. apply Hdom in Hin. rewrite Hnew in Hin.
        by destruct Hin. }
      exists owners, orphans.
      cbn [loop background world globals App.tasks App.set_tasks app].
      rewrite !(assoc_L (++)%list) in *.
      split_and!.
      * done.
      * apply NoDup_app. split_and!; [done| |apply NoDup_singleton].
        intros x Hx ->%list_elem_of_singleton. done.
      * intros id'. rewrite elem_of_app, list_elem_of_singleton.
        destruct (decide (id' = id)) as [->|Hne].
        -- rewrite lookup_insert_eq. split; [by right | by eauto].
        -- rewrite lookup_insert_ne by done. rewrite Hdom.
           split; [by left | by intros [?|?]].
      * intros b Hb. rewrite <- (assoc_L (++)%list) in Hb.
        apply elem_of_app in Hb as [Hb|Hb].
        -- rewrite lookup_insert_ne; [apply Hbg; solve_elem|].
           intros Heq. apply Hnotin. rewrite Heq. solve_elem.
        -- apply elem_of_app in Hb as [Hb| ->%list_elem_of_singleton].
           ++ rewrite lookup_insert_ne; [apply Hbg; solve_elem|].
              intros Heq. apply Hnotin. rewrite Heq. solve_elem.
           ++ rewrite lookup_insert_eq. eexists. split; [done|].
              by split_and!.
      * intros j b p Hj Hp. destruct (Hloop j b p Hj Hp) as (r & Hr & Hok).
        exists r. split; [|done]. rewrite lookup_insert_ne; [done|].
        intros Heq. apply Hnotin. rewrite Heq.
        apply list_elem_of_lookup_2 in Hj. solve_elem.
    + exists owners, orphans. by split_and!.
  - (* the framework starts a background task *)
    unfold dispatch. destruct (background s) as [|b rest] eqn:Hb.
    { exists owners, orphans. rewrite Hb. by split_and!. }
    unfold_turn.
    destruct (answer env AsyncioCreateTask (world s)) as [[]|e]; unfold_turn;
      cbn [result_of].
    + exists (owners ++ [b])%list, orphans.
      cbn [loop background world globals record].
      assert (forall x, x ∈ ((owners ++ [b]) ++ orphans ++ rest)%list
                        <-> x ∈ (owners ++ orphans ++ b :: rest)%list)
        as Hsame by solve_elem.
      split_and!.
      * rewrite !length_app. cbn. lia.
      * eapply NoDup_Permutation_proper; [|exact Hnodup].
        rewrite <- (assoc_L (++)%list). apply Permutation_app_head.
        cbn. by rewrite Permutation_middle.
      * intros id. by rewrite Hdom, Hsame.
      * intros b' Hb'. apply Hbg. solve_elem.
      * intros j b' p Hj Hp.
        destruct (decide (j < length owners)) as [Hlt|Hge].
        -- rewrite lookup_app_l in Hj by done.
           rewrite lookup_app_l in Hp by lia. by eapply Hloop.
        -- rewrite lookup_app_r in Hj by lia.
           rewrite lookup_app_r in Hp by lia. rewrite Hlen in Hj.
           destruct (j - length (loop s)) as [|k]; [|done].
           cbn in Hj, Hp. simplify_eq.
           destruct (Hbg b') as (r & Hr & Hun); [solve_elem|].
           exists r. split; [done|]. by left.
    + exists owners, (orphans ++ [b])%list.
      cbn [loop background world globals record].
      assert (forall x, x ∈ (owners ++ (orphans ++ [b]) ++ rest)%list
                        <-> x ∈ (owners ++ orphans ++ b :: rest)%list)
        as Hsame by solve_elem.
      split_and!.
      * done.
      * by rewrite <- (assoc_L (++)%list orphans).
      * intros id. by rewrite Hdom, Hsame.
      * intros b' Hb'. apply Hbg. solve_elem.
      * done.
  - (* a turn of the loop *)
    unfold turn. destruct (loop s !! i) as [p|] eqn:Hp.
    2: { exists owners, orphans. by split_and!. }
    destruct (finished p) eqn:Hfin.
    { exists owners, orphans. by split_and!. }
    destruct (lookup_lt_is_Some_2 owners i) as [b Hi].
    { rewrite Hlen. by eapply lookup_lt_Some. }
    destruct (Hloop i b p Hi Hp) as (r & Hr & Hok).
    destruct (resume env p (world s)) as [p' w'] eqn:Hrun.
    destruct (async_run_task_step env _ _ _ _ _ _ Hok Hr Hrun)
      as (r' & Hr' & Hok' & _ & _ & Hframe).
    assert (forall id, is_Some (App.tasks (globals w') !! id)
                       <-> is_Some (App.tasks (globals (world s)) !! id))
      as Hsame.
    { intros id. destruct (decide (id = b)) as [->|Hne].
      - rewrite Hr, Hr'. split; eauto.
      - by rewrite Hframe. }
    assert (forall b', b' ∈ (orphans ++ background s)%list -> b' <> b)
      as Hbgne.
    { intros b' Hb' ->.
      apply NoDup_app in Hnodup as (_ & Hdisj & _).
      apply (Hdisj b); [by eapply list_elem_of_lookup_2|done]. }
    exists owners, orphans. cbn [loop background world]. split_and!.
    + by rewrite length_insert.
    + done.
    + intros id. by rewrite Hsame.
    + intros b' Hb'. rewrite Hframe; [by apply Hbg | by apply Hbgne].
    + intros j b' q Hj Hq. destruct (decide (j = i)) as [->|Hne].
      * rewrite list_lookup_insert_eq in Hq by (by eapply lookup_lt_Some).
        simplify_eq. eauto.
      * rewrite list_lookup_insert_ne in Hq by done.
        destruct (Hloop j b' q Hj Hq) as (rq & Hrq & Hokq).
        exists rq. split; [|done]. rewrite Hframe; [done|].
        intros ->. apply Hne.
        apply NoDup_app in Hnodup as (Hnd & _ & _).
        by eapply NoDup_lookup.
Qed.

Lemma app_lifecycle_steps env evs s :
  uuid4_fresh env ->
  process_inv (fun g => dom (App.tasks g)) env s ->
  app_lifecycle_inv s ->
  app_lifecycle_inv (steps App.create_task App.run_agent_task env evs s).
Proof.
  intros Hfresh. revert s.
  induction evs as [|ev evs IH]; intros s Hproc Hlife; [done|].
  cbn. apply IH.
  - by apply (process_inv_step _ _ _ app_create_spec app_launch_spec).
  - by apply app_lifecycle_step.
Qed.

Lemma app_lifecycle env evs :
  uuid4_fresh env -> app_lifecycle_inv (app_steps env evs).
Proof.
  intros Hfresh. apply app_lifecycle_steps; [done| |apply app_lifecycle_boot].
  by apply process_inv_boot.
Qed.

Lemma app_executor_ok_consistent task_id p r :
  App.executor_ok task_id p r -> App.consistent r.
Proof.
  unfold App.consistent.
  intros [(_ & -> & ? & ?)|[(_ & -> & ? & ?)|[(_ & -> & ? & ?)|(_ & _ & ?)]]];
    done.
Qed.

Lemma app_lifecycle_owner s task_id r :
  app_lifecycle_inv s ->
  App.tasks (globals (world s)) !! task_id = Some r ->
  App.untouched r
  \/ exists i p, loop s !! i = Some p /\ App.executor_ok task_id p r.
Proof.
  intros (owners & orphans & Hlen & Hnodup & Hdom & Hbg & Hloop) Hr.
  assert (task_id ∈ (owners ++ orphans ++ background s)%list) as Hin
    by (apply Hdom; eauto).
  apply elem_of_app in Hin as [Hin|Hin].
  - right. apply list_elem_of_lookup in Hin as [i Hi].
    destruct (lookup_lt_is_Some_2 (loop s) i) as [p Hp];
      [rewrite <- Hlen; by eapply lookup_lt_Some|].
    destruct (Hloop i task_id p Hi Hp) as (r' & Hr' & Hok).
    rewrite Hr in Hr'. injection Hr' as <-. eauto.
  - left. destruct (Hbg task_id Hin) as (r' & Hr' & Hun).
    rewrite Hr in Hr'. by injection Hr' as <-.
Qed.

(** X16.  In [app.py], with an identifier generator that never
    repeats, after any requests and any schedule every record is
    consistent between turns: no result and no error while [pending] or
    [running], the success result and no error when [completed], an
    error when [failed], with either no result or the success result of
    a run whose [close()] failed. *)
Theorem app_records_stay_consistent env evs task_id r :
  uuid4_fresh env ->
  App.tasks (globals (world (app_steps env evs))) !! task_id = Some r ->
  App.consistent r.
Proof.
  intros Hfresh Hr.
  destruct (app_lifecycle_owner _ _ _ (app_lifecycle env evs Hfresh) Hr)
    as [(Hst & Hres & Herr)|(i & p & _ & Hok)].
  - unfold App.consistent. by rewrite Hst.
  - by eapply app_executor_ok_consistent.
Qed.

Lemma app_records_stay_consistent_witness :
  App.consistent
    {| App.status := App.failed; App.task_text := default_task;
       App.result := Some App.success_result; App.error := Some "" |}.
Proof.
  apply (app_records_stay_consistent
           (raising is_close TimeoutError all_fine)
           [Submit {| task := "default"; custom_task := None |};
            Dispatch; Resume 0; Resume 0; Resume 0; Resume 0] "0").
  - intros i j id. unfold raising. cbn. intros [= <-] [= Hj].
    by apply (inj pretty) in Hj.
  - reflexivity.
Defined.

(** X17.  In [app.py], with an identifier generator that never
    repeats, no request, background start or turn of the loop moves a
    record backwards along pending, running, completed, failed; none
    changes the instruction stored in a record; and a [failed] record
    is never changed again. *)
Theorem app_status_only_advances env evs ev task_id r :
  uuid4_fresh env ->
  let s := app_steps env evs in
  let s' := step App.create_task App.run_agent_task env s ev in
  App.tasks (globals (world s)) !! task_id = Some r ->
  exists r',
    App.tasks (globals (world s')) !! task_id = Some r'
    /\ App.rank (App.status r) <= App.rank (App.status r')
    /\ App.task_text r' = App.task_text r
    /\ (App.status r = App.failed -> r' = r).
Proof.
  intros Hfresh s s' Hr.
  destruct (app_lifecycle env evs Hfresh)
    as (owners & orphans & Hlen & Hnodup & Hdom & Hbg & Hloop).
  fold s in Hlen, Hnodup, Hdom, Hbg, Hloop.
  subst s'. destruct ev as [request| |i]; cbn [step].
  - unfold submit. unfold_turn.
    destruct (answer env Uuid4 (world s)) as [id|e] eqn:Ha; unfold_turn;
      cbn [result_of world globals App.tasks App.set_tasks].
    + pose proof (process_inv_fresh _ env s id Hfresh
                    (app_process_inv env evs) Ha) as Hnew.
      apply not_elem_of_dom in Hnew.
      exists r. rewrite lookup_insert_ne by congruence. by split_and!.
    + exists r. by split_and!.
  - unfold dispatch. destruct (background s) as [|b rest];
      [exists r; by split_and!|].
    unfold_turn.
    destruct (answer env AsyncioCreateTask (world s)) as [[]|e]; unfold_turn;
      cbn [result_of world globals record]; exists r; by split_and!.
  - unfold turn. destruct (loop s !! i) as [p|] eqn:Hp;
      [|exists r; by split_and!].
    destruct (finished p) eqn:Hfin; [exists r; by split_and!|].
    destruct (lookup_lt_is_Some_2 owners i) as [b Hi].
    { rewrite Hlen. by eapply lookup_lt_Some. }
    destruct (Hloop i b p Hi Hp) as (rb & Hrb & Hok).
    destruct (resume env p (world s)) as [p' w'] eqn:Hrun.
    destruct (async_run_task_step env _ _ _ _ _ _ Hok Hrb Hrun)
      as (r' & Hr' & Hok' & Hrank & Htext & Hframe).
    cbn [world]. destruct (decide (task_id = b)) as [->|Hne].
    + rewrite Hr in Hrb. injection Hrb as <-.
      exists r'. split_and!; [done..|]. intros Hend.
      destruct Hok as [(-> & Hst & _)|[(_ & Hst & _)|[(_ & Hst & _)
                      |(-> & _ & _)]]];
        cbn in Hfin; congruence.
    + exists r. rewrite Hframe by done. by split_and!.
Qed.

Lemma app_status_only_advances_witness :
  let env := raising is_close TimeoutError all_fine in
  let evs := [Submit {| task := "default"; custom_task := None |};
              Dispatch; Resume 0; Resume 0; Resume 0] in
  exists r',
    App.tasks (globals (world (app_steps env (evs ++ [Resume 0]))))
    !! "0" = Some r'
    /\ 2 <= App.rank (App.status r')
    /\ App.task_text r' = default_task.
Proof.
  intros env evs.
  destruct (app_status_only_advances env evs (Resume 0) "0"
              {| App.status := App.completed; App.task_text := default_task;
                 App.result := Some App.success_result;
                 App.error := None |}) as (r' & Hr' & Hrank & Htext & _).
  - intros i j id. unfold env, raising. cbn. intros [= <-] [= Hj].
    by apply (inj pretty) in Hj.
  - reflexivity.
  - exists r'. split_and!; [exact Hr' | exact Hrank | exact Htext].
Defined.


(** ** What a client sees of a task *)


